(** * hookform-action: the submission lifecycle, its error mapper and its
    persistence helpers

    A shallow embedding of
    - [packages/core/src/types.ts] ([isFormDataAction], [defaultErrorMapper],
      [hasAttachedSchema]) and its twin [core-types.ts],
    - [persist.ts] ([isClient], [loadPersistedValues], [savePersistedValues],
      [clearPersistedValues], [debounce]),
    - [react-shim.ts] and the login example of the docs,
    together with a model of the submission controller and of the optimistic
    reconciler.

    Layout: Part I holds every definition, Parts II and III the theorems
    about them. *)

From Stdlib Require Import ZArith Lia.
From stdpp Require Import base option list strings gmap pretty.

Local Open Scope string_scope.
Set Warnings "-register-all".

(* ===================================================================== *)
(** * Part I: definitions                                                  *)
(* ===================================================================== *)

(** ** JavaScript values *)

Module Js.

(** A number is kept only as far as the code looks at it: [NaN], the two
    infinities, or a finite value [num / den]. *)
Inductive JsNumber : Type :=
  | NaN
  | Infinity (negative : bool)
  | Finite (num : Z) (den : positive).

(** How [typeof] and [Array.isArray] see a non-callable object. *)
Inductive ObjKind : Type := KPlain | KArray.

(** Runtime values.  An object carries the properties that member access and
    the [in] operator can see (own and inherited data properties); a function
    also carries its declared parameter count, the value of [.length]. *)
Inductive JsValue : Type :=
  | VUndefined
  | VNull
  | VBool (b : bool)
  | VNumber (n : JsNumber)
  | VBigInt (z : Z)
  | VString (s : string)
  | VSymbol (description : string)
  | VObject (kind : ObjKind) (props : list (string * JsValue))
  | VFunction (arity : nat) (props : list (string * JsValue)).

(** A completion: the evaluation ends normally with a value, or abruptly with
    a thrown value. *)
Inductive completion (A : Type) : Type :=
  | Normal (a : A)
  | Throw (thrown : JsValue).
Arguments Normal {A} a.
Arguments Throw {A} thrown.

#[export] Instance completion_bind : MBind completion := fun A B k c =>
  match c with
  | Normal a => k a
  | Throw e => Throw e
  end.

(** [a && b] on conditions: [b] is looked at only when [a] is true. *)
Definition cand (a b : completion bool) : completion bool :=
  match a with
  | Normal true => b
  | Normal false => Normal false
  | Throw e => Throw e
  end.

Infix "&&&" := cand (at level 40, left associativity).

Definition TypeError (message : string) : JsValue :=
  VObject KPlain [("name", VString "TypeError"); ("message", VString message)].

Definition number_is_zero (n : JsNumber) : bool :=
  match n with
  | Finite num _ => (num =? 0)%Z
  | _ => false
  end.

(** ToBoolean *)
Definition truthy (v : JsValue) : bool :=
  match v with
  | VUndefined | VNull => false
  | VBool b => b
  | VNumber NaN => false
  | VNumber n => negb (number_is_zero n)
  | VBigInt z => negb (z =? 0)%Z
  | VString s => negb (String.eqb s EmptyString)
  | VSymbol _ => true
  | VObject _ _ => true
  | VFunction _ _ => true
  end.

(** The [typeof] operator *)
Definition typeof (v : JsValue) : string :=
  match v with
  | VUndefined => "undefined"
  | VNull => "object"
  | VBool _ => "boolean"
  | VNumber _ => "number"
  | VBigInt _ => "bigint"
  | VString _ => "string"
  | VSymbol _ => "symbol"
  | VObject _ _ => "object"
  | VFunction _ _ => "function"
  end.

Fixpoint lookup_prop (key : string) (props : list (string * JsValue)) : option JsValue :=
  match props with
  | [] => None
  | (k, v) :: rest => if String.eqb k key then Some v else lookup_prop key rest
  end.

Definition of_nat (n : nat) : JsValue := VNumber (Finite (Z.of_nat n) 1).

(** [key in v]: a TypeError on anything that is not an object. *)
Definition js_in (key : string) (v : JsValue) : completion bool :=
  match v with
  | VObject _ props => Normal (bool_decide (is_Some (lookup_prop key props)))
  | VFunction _ props =>
      Normal (String.eqb key "length" || bool_decide (is_Some (lookup_prop key props)))
  | _ => Throw (TypeError "right-hand side of 'in' is not an object")
  end.

(** [v.key]: a TypeError on [null] and [undefined], [undefined] for a missing
    property.  The wrapper objects of primitives hold methods only and are
    not modelled: every key reads as [undefined] there. *)
Definition js_get (v : JsValue) (key : string) : completion JsValue :=
  match v with
  | VUndefined | VNull => Throw (TypeError "cannot read properties of null or undefined")
  | VObject _ props => Normal (default VUndefined (lookup_prop key props))
  | VFunction arity props =>
      if String.eqb key "length" then Normal (of_nat arity)
      else Normal (default VUndefined (lookup_prop key props))
  | _ => Normal VUndefined
  end.

(** [v != null] (loose): neither [null] nor [undefined]. *)
Definition not_nullish (v : JsValue) : bool :=
  match v with
  | VUndefined | VNull => false
  | _ => true
  end.

(** An object literal and an array literal. *)
Definition obj (props : list (string * JsValue)) : JsValue := VObject KPlain props.

Definition arr (items : list JsValue) : JsValue :=
  VObject KArray
    (("length", of_nat (length items)) :: imap (fun i x => (pretty i, x)) items).

End Js.

Import Js.

(** ** types.ts *)

Module Types.

(** [ServerAction<TResult>]: a function value; [action_length] is its
    [.length], [action_props] the properties attached to it (such as
    [__schema]). *)
Record ServerAction : Type := {
  action_length : nat;
  action_props : list (string * JsValue);
}.

Definition action_value (action : ServerAction) : JsValue :=
  VFunction (action_length action) (action_props action).

(** The two calling conventions named by the type predicate of
    [isFormDataAction]: [FormDataServerAction] takes
    [(prevState, formData)], [JsonServerAction] takes [(data)]. *)
Inductive CallingConvention : Type :=
  | FormDataServerAction
  | JsonServerAction.

(** [return action.length >= 2] *)
Definition isFormDataAction (action : ServerAction) : bool :=
  (2 <=? action_length action)%nat.

(** The narrowing that the predicate [action is FormDataServerAction<TResult>]
    performs on the union [ServerAction<TResult>]. *)
Definition callingConvention (action : ServerAction) : CallingConvention :=
  if isFormDataAction action then FormDataServerAction else JsonServerAction.

(** [defaultErrorMapper]:
    [if (result && typeof result === 'object' && 'errors' in result &&
         result.errors && typeof result.errors === 'object')
       return result.errors
     return null] *)
Definition defaultErrorMapper (result : JsValue) : completion JsValue :=
  cond ← Normal (truthy result)
         &&& Normal (String.eqb (typeof result) "object")
         &&& js_in "errors" result
         &&& (errors ← js_get result "errors"; Normal (truthy errors))
         &&& (errors ← js_get result "errors";
              Normal (String.eqb (typeof errors) "object"));
  if (cond : bool) then js_get result "errors" else Normal VNull.

(** [hasAttachedSchema]:
    ['__schema' in action && action.__schema != null] *)
Definition hasAttachedSchema (action : ServerAction) : completion bool :=
  js_in "__schema" (action_value action)
  &&& (schema ← js_get (action_value action) "__schema";
       Normal (not_nullish schema)).

End Types.

Import Types.

(** ** persist.ts *)

Module Persist.

(** Code that reads and writes the storage medium: it runs on the medium's
    state [S] and ends with a completion. *)
Definition Eff (S A : Type) : Type := S -> completion A * S.

Definition eret {S A} (a : A) : Eff S A := fun s => (Normal a, s).

Definition ebind {S A B} (c : Eff S A) (k : A -> Eff S B) : Eff S B :=
  fun s =>
    match c s with
    | (Normal a, s') => k a s'
    | (Throw e, s') => (Throw e, s')
    end.

Definition ethrow {S A} (e : JsValue) : Eff S A := fun s => (Throw e, s).

Definition lift {S A} (c : completion A) : Eff S A := fun s => (c, s).

(** [try { body } catch { handler }]: what the body wrote before it threw
    stays written. *)
Definition etry {S A} (body : Eff S A) (handler : JsValue -> Eff S A) : Eff S A :=
  fun s =>
    match body s with
    | (Normal a, s') => (Normal a, s')
    | (Throw e, s') => handler e s'
    end.

Notation "'let!' x ':=' c 'in' k" := (ebind c (fun x => k))
  (at level 10, x name, c at level 100, k at level 200).

(** The [Storage] interface of the medium ([window.sessionStorage]): each
    method may throw (quota exceeded, storage disabled) and may leave any
    state behind when it does. *)
Record Storage (S : Type) : Type := {
  getItem : string -> Eff S (option string);
  setItem : string -> string -> Eff S unit;
  removeItem : string -> Eff S unit;
}.
Arguments getItem {S}.
Arguments setItem {S}.
Arguments removeItem {S}.

(** The global scope: [window] may be undeclared (server-side rendering);
    reading [window.sessionStorage] runs a getter, which gives [undefined],
    gives the medium, or throws (a SecurityError where access to storage is
    denied). *)
Record Window (S : Type) : Type := {
  sessionStorage : completion (option (Storage S));
}.
Arguments sessionStorage {S}.

Record Global (S : Type) : Type := {
  window : option (Window S);
}.
Arguments window {S}.

Definition ReferenceError (message : string) : JsValue :=
  obj [("name", VString "ReferenceError"); ("message", VString message)].

(** [typeof window !== 'undefined' &&
     typeof window.sessionStorage !== 'undefined'] *)
Definition isClient {S} (g : Global S) : completion bool :=
  match window g with
  | None => Normal false
  | Some w =>
      storage ← sessionStorage w;
      Normal (bool_decide (is_Some storage))
  end.

(** The medium behind [window.sessionStorage], when there is one. *)
Definition medium {S} (g : Global S) : option (Storage S) :=
  match window g with
  | Some w =>
      match sessionStorage w with
      | Normal storage => storage
      | Throw _ => None
      end
  | None => None
  end.

(** The expression [window.sessionStorage], followed by a method call: a
    ReferenceError without [window], what the getter throws when it throws,
    a TypeError without the medium. *)
Definition window_sessionStorage {S A} (g : Global S) (call : Storage S -> Eff S A)
  : Eff S A :=
  match window g with
  | None => ethrow (ReferenceError "window is not defined")
  | Some w =>
      match sessionStorage w with
      | Throw thrown => ethrow thrown
      | Normal None => ethrow (TypeError "cannot read properties of undefined")
      | Normal (Some storage) => call storage
      end
  end.

Section Helpers.

Context {S : Type}.

(** The built-ins [JSON.parse] and [JSON.stringify]: [JSON.parse] throws a
    SyntaxError on a string that is not valid JSON, [JSON.stringify] throws
    on values it cannot serialise. *)
Variable JSON_parse : string -> completion JsValue.
Variable JSON_stringify : JsValue -> completion string.

Variable g : Global S.

(** [loadPersistedValues(key)]; [!raw] holds of [null] and of the empty
    string. *)
Definition loadPersistedValues (key : string) : Eff S JsValue :=
  let! client := lift (isClient g) in
  if negb client then eret VNull
  else
    etry
      (let! raw := window_sessionStorage g (fun storage => getItem storage key) in
       match raw with
       | None => eret VNull
       | Some text =>
           if String.eqb text EmptyString then eret VNull
           else lift (JSON_parse text)
       end)
      (fun _ => eret VNull).

(** [savePersistedValues(key, values)] *)
Definition savePersistedValues (key : string) (values : JsValue) : Eff S unit :=
  let! client := lift (isClient g) in
  if negb client then eret tt
  else
    etry
      (window_sessionStorage g (fun storage =>
         let! text := lift (JSON_stringify values) in
         setItem storage key text))
      (fun _ => eret tt).

(** [clearPersistedValues(key)] *)
Definition clearPersistedValues (key : string) : Eff S unit :=
  let! client := lift (isClient g) in
  if negb client then eret tt
  else
    etry
      (window_sessionStorage g (fun storage => removeItem storage key))
      (fun _ => eret tt).

End Helpers.

(** Reading [window.sessionStorage] does not throw: the guard [isClient()]
    returns. *)
Definition readable {S} (g : Global S) : Prop :=
  exists client, isClient g = Normal client.

(** A medium on which a removed key reads as absent, as the Web Storage
    interface has it. *)
Definition removes_keys {S} (storage : Storage S) : Prop :=
  forall key s, (getItem storage key (removeItem storage key s).2).1 = Normal None.

(** A medium on which a text that [setItem] stored is what [getItem] reads
    back, as the Web Storage interface has it. *)
Definition stores_keys {S} (storage : Storage S) : Prop :=
  forall key text s,
    (setItem storage key text s).1 = Normal tt ->
    (getItem storage key (setItem storage key text s).2).1 = Normal (Some text).

(** No snapshot under [key]: no medium at all, or [getItem(key)] is null. *)
Definition snapshot_absent {S} (g : Global S) (key : string) (s : S) : Prop :=
  match medium g with
  | Some storage => (getItem storage key s).1 = Normal None
  | None => True
  end.

(** *** Media and global scopes for concrete runs *)

Definition QuotaExceededError : JsValue :=
  obj [("name", VString "QuotaExceededError")].

Definition SecurityError : JsValue :=
  obj [("name", VString "SecurityError")].

Definition stored_size (s : gmap string string) : nat :=
  map_fold (fun k v acc => String.length k + String.length v + acc)%nat 0%nat s.

(** A session storage holding at most [quota] characters. *)
Definition web_storage (quota : nat) : Storage (gmap string string) := {|
  getItem key := fun s => (Normal (s !! key), s);
  setItem key text := fun s =>
    if (stored_size (<[key:=text]> s) <=? quota)%nat
    then (Normal tt, <[key:=text]> s)
    else (Throw QuotaExceededError, s);
  removeItem key := fun s => (Normal tt, delete key s);
|}.

(** A medium that is present but refuses every access. *)
Definition disabled_storage : Storage (gmap string string) := {|
  getItem key := ethrow SecurityError;
  setItem key text := ethrow SecurityError;
  removeItem key := ethrow SecurityError;
|}.

(** [JSON.parse] and [JSON.stringify] on the three literal names of JSON, to
    run the helpers on concrete inputs; every other text, such as the corrupt
    snapshot [{invalid] of the tests, is a SyntaxError here. *)
Definition SyntaxError : JsValue :=
  obj [("name", VString "SyntaxError")].

Definition parse_literal (text : string) : completion JsValue :=
  if String.eqb text "null" then Normal VNull
  else if String.eqb text "true" then Normal (VBool true)
  else if String.eqb text "false" then Normal (VBool false)
  else Throw SyntaxError.

Definition stringify_literal (v : JsValue) : completion string :=
  match v with
  | VNull => Normal "null"
  | VBool true => Normal "true"
  | VBool false => Normal "false"
  | _ => Throw (TypeError "not a JSON literal")
  end.

Definition browser (storage : Storage (gmap string string)) : Global (gmap string string) :=
  {| window := Some {| sessionStorage := Normal (Some storage) |} |}.

Definition server : Global (gmap string string) := {| window := None |}.

Definition window_without_storage : Global (gmap string string) :=
  {| window := Some {| sessionStorage := Normal None |} |}.

(** A window in which access to storage is denied (an opaque origin, storage
    blocked by the user): reading [window.sessionStorage] throws. *)
Definition storage_denied : Global (gmap string string) :=
  {| window := Some {| sessionStorage := Throw SecurityError |} |}.

(** *** The debounce utility *)

(** Timers of the event loop, restricted to the callbacks that [debounce]
    registers: each pending entry is the closure
    [() => { fn(...args); timer = null }], kept as its captured [args] and the
    time at which it is due.  Timer ids are positive integers. *)
Record Timeout (TArgs : Type) : Type := {
  timeout_id : positive;
  timeout_due : nat;
  timeout_args : TArgs;
}.
Arguments timeout_id {TArgs}.
Arguments timeout_due {TArgs}.
Arguments timeout_args {TArgs}.

(** The world a debounced function lives in: the clock (milliseconds), the
    timer queue, the closure variable [timer], the state [W] that [fn] acts
    on, and the record of the invocations of [fn] with their times. *)
Record Loop (TArgs W : Type) : Type := {
  now : nat;
  next_id : positive;
  pending : list (Timeout TArgs);
  timer : option positive;
  target : W;
  fired : list (nat * TArgs);
}.
Arguments now {TArgs W}.
Arguments next_id {TArgs W}.
Arguments pending {TArgs W}.
Arguments timer {TArgs W}.
Arguments target {TArgs W}.
Arguments fired {TArgs W}.

Section Debounce.

Context {TArgs W : Type}.

(** [fn]: it acts on [W] and may throw. *)
Variable fn : TArgs -> W -> completion unit * W.
Variable delay : nat.

Definition fresh_loop (start : nat) (w : W) : Loop TArgs W :=
  {| now := start; next_id := 1%positive; pending := []; timer := None;
     target := w; fired := [] |}.

(** [clearTimeout(id)] *)
Definition clearTimeout (id : positive) (l : Loop TArgs W) : Loop TArgs W :=
  {| now := now l; next_id := next_id l;
     pending := filter (fun t => timeout_id t ≠ id) (pending l);
     timer := timer l; target := target l; fired := fired l |}.

(** [setTimeout(callback, delay)], returning the new id. *)
Definition setTimeout (args : TArgs) (ms : nat) (l : Loop TArgs W)
  : positive * Loop TArgs W :=
  (next_id l,
   {| now := now l; next_id := Pos.succ (next_id l);
      pending := pending l ++
        [{| timeout_id := next_id l; timeout_due := now l + ms; timeout_args := args |}];
      timer := timer l; target := target l; fired := fired l |}).

Definition set_timer (t : option positive) (l : Loop TArgs W) : Loop TArgs W :=
  {| now := now l; next_id := next_id l; pending := pending l;
     timer := t; target := target l; fired := fired l |}.

(** The function that [debounce(fn, delay)] returns:
    [if (timer) clearTimeout(timer); timer = setTimeout(..., delay)] *)
Definition debounce (args : TArgs) (l : Loop TArgs W) : Loop TArgs W :=
  let l1 := match timer l with
            | Some id => clearTimeout id l
            | None => l
            end in
  let '(id, l2) := setTimeout args delay l1 in
  set_timer (Some id) l2.

(** The timer callback [() => { fn(...args); timer = null }], run at time
    [at]: when [fn] throws, the assignment is not reached. *)
Definition callback (at_time : nat) (args : TArgs) (l : Loop TArgs W) : Loop TArgs W :=
  let '(outcome, w) := fn args (target l) in
  {| now := at_time; next_id := next_id l; pending := pending l;
     timer := match outcome with
              | Normal _ => None
              | Throw _ => timer l
              end;
     target := w; fired := fired l ++ [(at_time, args)] |}.

(** The pending timeout that the event loop runs next: the one due first,
    the older one among equals. *)
Fixpoint earliest (ts : list (Timeout TArgs)) : option (Timeout TArgs) :=
  match ts with
  | [] => None
  | t :: rest =>
      match earliest rest with
      | Some t' => if (timeout_due t' <? timeout_due t)%nat then Some t' else Some t
      | None => Some t
      end
  end.

(** Run the callbacks that are due by [limit], one at a time. *)
Fixpoint run_due (fuel : nat) (limit : nat) (l : Loop TArgs W) : Loop TArgs W :=
  match fuel with
  | O => l
  | Datatypes.S fuel' =>
      match earliest (filter (fun t => (timeout_due t <= limit)%nat) (pending l)) with
      | None => l
      | Some t =>
          run_due fuel' limit
            (callback (Nat.max (now l) (timeout_due t)) (timeout_args t)
               (clearTimeout (timeout_id t) l))
      end
  end.

(** [ms] milliseconds pass and the event loop takes its turn. *)
Definition advance (ms : nat) (l : Loop TArgs W) : Loop TArgs W :=
  let l' := run_due (length (pending l)) (now l + ms) l in
  {| now := now l + ms; next_id := next_id l'; pending := pending l';
     timer := timer l'; target := target l'; fired := fired l' |}.

(** The time before a call: none when the call is made in the same run as
    what came before, as in [fn(); fn()]; otherwise [pause] milliseconds,
    after which the event loop takes its turn. *)
Definition pass (pause : nat) (l : Loop TArgs W) : Loop TArgs W :=
  match pause with
  | O => l
  | Datatypes.S _ => advance pause l
  end.

(** A burst: a first call, then further calls, each after a pause. *)
Fixpoint burst (calls : list (nat * TArgs)) (l : Loop TArgs W) : Loop TArgs W :=
  match calls with
  | [] => l
  | (pause, args) :: rest => burst rest (debounce args (pass pause l))
  end.

(** The three conditions a debounced function goes through: nothing
    scheduled and nothing fired yet; one timeout scheduled, holding [args]
    and due at [due]; that timeout fired, once. *)
Definition quiet (w : W) (l : Loop TArgs W) : Prop :=
  pending l = [] /\ fired l = [] /\ target l = w.

Definition armed (due : nat) (args : TArgs) (w : W) (l : Loop TArgs W) : Prop :=
  exists id,
    pending l = [{| timeout_id := id; timeout_due := due; timeout_args := args |}]
    /\ timer l = Some id /\ fired l = [] /\ now l <= due /\ target l = w.

Definition spent (due : nat) (args : TArgs) (w : W) (l : Loop TArgs W) : Prop :=
  pending l = [] /\ fired l = [(due, args)] /\ target l = (fn args w).2.

Definition advances (pauses : list nat) (l : Loop TArgs W) : Loop TArgs W :=
  fold_left (fun l ms => advance ms l) pauses l.

(** What can happen to a debounced function, in any order: a call, or a turn
    of the event loop after [ms] milliseconds. *)
Inductive Action : Type :=
  | Call (args : TArgs)
  | Turn (ms : nat).

Definition act (l : Loop TArgs W) (a : Action) : Loop TArgs W :=
  match a with
  | Call args => debounce args l
  | Turn ms => advance ms l
  end.

Definition play (actions : list Action) (l : Loop TArgs W) : Loop TArgs W :=
  fold_left act actions l.

(** The arguments of the calls of a history, in order. *)
Fixpoint calls_of (actions : list Action) : list TArgs :=
  match actions with
  | [] => []
  | Call args :: rest => args :: calls_of rest
  | Turn _ :: rest => calls_of rest
  end.

(** At most one timeout is pending, and the closure variable [timer] holds
    its id. *)
Definition tidy (l : Loop TArgs W) : Prop :=
  pending l = []
  \/ exists t, pending l = [t] /\ timer l = Some (timeout_id t).

(** What has fired and what is pending was called for. *)
Definition accounted (calls : list TArgs) (l : Loop TArgs W) : Prop :=
  tidy l
  /\ length (fired l) + length (pending l) <= length calls
  /\ Forall (fun invocation => invocation.2 ∈ calls) (fired l)
  /\ Forall (fun t => timeout_args t ∈ calls) (pending l).

(** One timeout scheduled, holding [args] and due at [due], after the
    invocations in [log]. *)
Definition armed_after (log : list (nat * TArgs)) (due : nat) (args : TArgs) (w : W)
    (l : Loop TArgs W) : Prop :=
  exists id,
    pending l = [{| timeout_id := id; timeout_due := due; timeout_args := args |}]
    /\ timer l = Some id /\ fired l = log /\ now l <= due /\ target l = w.

(** The times at which the calls of a burst are made, from [start]. *)
Fixpoint call_times (start : nat) (calls : list (nat * TArgs)) : list (nat * TArgs) :=
  match calls with
  | [] => []
  | (pause, args) :: rest => (start + pause, args) :: call_times (start + pause) rest
  end.

(** [fn] run on the arguments of each call in turn. *)
Definition run_all (calls : list (nat * TArgs)) (w : W) : W :=
  fold_left (fun w call => (fn call.2 w).2) calls w.

End Debounce.

End Persist.

Import Persist.

(** ** The optimistic reconciler *)

Module Reconciler.

(** Modelled from the spec: the optimistic reconciler of
    [use-action-form-core.ts], which is not among the sources.  It keeps the
    confirmed value next to [data], the value shown; [data] and [isPending]
    are the fields of [OptimisticState] in [types.ts]. *)
Record State (T : Type) : Type := {
  confirmed : T;
  data : T;
  isPending : bool;
}.
Arguments confirmed {T}.
Arguments data {T}.
Arguments isPending {T}.

Section Ops.

Context {T V : Type}.

(** Modelled from the spec: the reconciler is constructed with an initial
    confirmed value. *)
Definition create (initial : T) : State T :=
  {| confirmed := initial; data := initial; isPending := false |}.

(** Modelled from the spec: [apply(submittedValues)] shows the reducer's
    value over (confirmed value, submitted field values); a second [apply]
    overwrites the first. *)
Definition apply (reducer : T -> V -> T) (values : V) (st : State T) : State T :=
  {| confirmed := confirmed st; data := reducer (confirmed st) values; isPending := true |}.

(** Modelled from the spec: [confirm(value)]. *)
Definition confirm (value : T) (st : State T) : State T :=
  {| confirmed := value; data := value; isPending := false |}.

(** Modelled from the spec: [rollback()] restores the last explicitly
    confirmed value. *)
Definition rollback (st : State T) : State T :=
  {| confirmed := confirmed st; data := confirmed st; isPending := false |}.

(** The three operations as data, to run sequences of them. *)
Inductive Op : Type :=
  | Apply (values : V)
  | Confirm (value : T)
  | Rollback.

Definition exec (reducer : T -> V -> T) (st : State T) (op : Op) : State T :=
  match op with
  | Apply values => apply reducer values st
  | Confirm value => confirm value st
  | Rollback => rollback st
  end.

(** The value of the last [Confirm] in a sequence, [initial] when there is
    none. *)
Definition last_confirm (initial : T) (ops : list Op) : T :=
  fold_left (fun c op => match op with Confirm value => value | _ => c end) ops initial.

End Ops.

Arguments Op : clear implicits.

End Reconciler.

(** ** The submission controller *)

Module Controller.

(** A field error record as the controller carries it: the runtime value
    that the error mapper or the validation adapter produced. *)
Definition FieldErrorRecord : Type := JsValue.

(** [ActionFormState<TResult>] of [types.ts]; [null] is [None]. *)
Record ActionFormState (TResult : Type) : Type := {
  isSubmitting : bool;
  isSubmitSuccessful : bool;
  submitErrors : option FieldErrorRecord;
  actionResult : option TResult;
  isPending : bool;
}.
Arguments isSubmitting {TResult}.
Arguments isSubmitSuccessful {TResult}.
Arguments submitErrors {TResult}.
Arguments actionResult {TResult}.
Arguments isPending {TResult}.

(** [SubmissionRecord<TResult>] of [types.ts] without its wall-clock fields
    ([id], [timestamp], [duration]). *)
Record SubmissionRecord (TFieldValues TResult : Type) : Type := {
  payload : TFieldValues;
  response : option TResult;
  error : option JsValue;
  success : bool;
}.
Arguments payload {TFieldValues TResult}.
Arguments response {TFieldValues TResult}.
Arguments error {TFieldValues TResult}.
Arguments success {TFieldValues TResult}.

Section Lifecycle.

Context {TFieldValues TResult TOptimistic S : Type}.

(** Modelled from the spec: what awaiting the submit function gives; it
    resolves with a result, or it throws or rejects. *)
Inductive Settled : Type :=
  | Resolved (result : TResult)
  | Rejected (thrown : JsValue).

(** Modelled from the spec: the validation adapter applied to a schema,
    [validate(schema, candidateValues) -> FieldErrorRecord | null]. *)
Definition Schema : Type := TFieldValues -> option FieldErrorRecord.

(** Modelled from the spec: a submit function may carry an attached schema
    (the [__schema] of [ZodServerAction] in [types.ts]). *)
Record SubmitFunction : Type := {
  invoke : TFieldValues -> Settled;
  attached_schema : option Schema;
}.

(** Modelled from the spec: the options of [UseActionFormCoreOptions] in
    [types.ts] that the submission lifecycle reads.  The error mapper gives
    [None] for [null] and [undefined].  Plugins are left out: the
    configurations covered are those without plugins. *)
Record Options : Type := {
  persistKey : option string;
  errorMapper : TResult -> option FieldErrorRecord;
  schema : option Schema;
  optimisticKey : option string;
  optimisticData : option (TOptimistic -> TFieldValues -> TOptimistic);
  optimisticInitial : TOptimistic;
}.

(** Modelled from the spec: the calls of [onSuccess] and [onError], in
    order. *)
Inductive Callback : Type :=
  | OnSuccess (result : TResult)
  | OnErrorResult (result : TResult)
  | OnErrorThrown (thrown : JsValue).

(** Modelled from the spec: the controller of [use-action-form-core.ts],
    which is not among the sources, with what it acts on; the form state,
    the reconciler, the debug history, the storage medium's state, and the
    record of the calls made to the submit function and to the callbacks. *)
Record Controller : Type := {
  formState : ActionFormState TResult;
  optimistic : option (Reconciler.State TOptimistic);
  submissionHistory : list (SubmissionRecord TFieldValues TResult);
  storage : S;
  submitCalls : list TFieldValues;
  callbacks : list Callback;
}.

Variable g : Global S.
Variable options : Options.

(** Modelled from the spec: optimistic updates are on when [optimisticKey]
    and [optimisticData] are both given. *)
Definition reducer_of : option (TOptimistic -> TFieldValues -> TOptimistic) :=
  match optimisticKey options with
  | Some _ => optimisticData options
  | None => None
  end.

(** Modelled from the spec: the state at mount. *)
Definition mount (s : S) : Controller := {|
  formState := {| isSubmitting := false; isSubmitSuccessful := false;
                  submitErrors := None; actionResult := None; isPending := false |};
  optimistic := match reducer_of with
                | Some _ => Some (Reconciler.create (optimisticInitial options))
                | None => None
                end;
  submissionHistory := [];
  storage := s;
  submitCalls := [];
  callbacks := [];
|}.

(** Modelled from the spec: the explicit schema has priority over the
    attached one. *)
Definition effective_schema (submit : SubmitFunction) : option Schema :=
  match schema options with
  | Some sch => Some sch
  | None => attached_schema submit
  end.

Definition with_formState (fs : ActionFormState TResult) (c : Controller) : Controller :=
  {| formState := fs; optimistic := optimistic c;
     submissionHistory := submissionHistory c; storage := storage c;
     submitCalls := submitCalls c; callbacks := callbacks c |}.

Definition with_optimistic (f : Reconciler.State TOptimistic -> Reconciler.State TOptimistic)
    (c : Controller) : Controller :=
  {| formState := formState c; optimistic := f <$> optimistic c;
     submissionHistory := submissionHistory c; storage := storage c;
     submitCalls := submitCalls c; callbacks := callbacks c |}.

Definition with_storage (s : S) (c : Controller) : Controller :=
  {| formState := formState c; optimistic := optimistic c;
     submissionHistory := submissionHistory c; storage := s;
     submitCalls := submitCalls c; callbacks := callbacks c |}.

Definition log_call (values : TFieldValues) (c : Controller) : Controller :=
  {| formState := formState c; optimistic := optimistic c;
     submissionHistory := submissionHistory c; storage := storage c;
     submitCalls := submitCalls c ++ [values]; callbacks := callbacks c |}.

Definition log_callback (cb : Callback) (c : Controller) : Controller :=
  {| formState := formState c; optimistic := optimistic c;
     submissionHistory := submissionHistory c; storage := storage c;
     submitCalls := submitCalls c; callbacks := callbacks c ++ [cb] |}.

Definition log_record (r : SubmissionRecord TFieldValues TResult) (c : Controller)
  : Controller :=
  {| formState := formState c; optimistic := optimistic c;
     submissionHistory := submissionHistory c ++ [r]; storage := storage c;
     submitCalls := submitCalls c; callbacks := callbacks c |}.

(** Modelled from the spec: [Validating -> Idle] (abort).  The record is
    surfaced as [submitErrors] and [isSubmitSuccessful] is set false. *)
Definition abort (record : FieldErrorRecord) (c : Controller) : Controller :=
  with_formState
    {| isSubmitting := false; isSubmitSuccessful := false;
       submitErrors := Some record; actionResult := actionResult (formState c);
       isPending := false |} c.

(** Modelled from the spec: entry of [Submitting].  The reconciler applies
    the speculative reducer before the submit function is called. *)
Definition enter_submitting (values : TFieldValues) (c : Controller) : Controller :=
  let c1 := with_formState
    {| isSubmitting := true; isSubmitSuccessful := isSubmitSuccessful (formState c);
       submitErrors := submitErrors (formState c);
       actionResult := actionResult (formState c); isPending := true |} c in
  match reducer_of with
  | Some reducer => with_optimistic (Reconciler.apply reducer values) c1
  | None => c1
  end.

(** Modelled from the spec: [Idle -> Validating], then the abort ([inl]) or
    [Validating -> Submitting] ([inr]).  Without a schema the validation is
    skipped. *)
Definition start (submit : SubmitFunction) (values : TFieldValues) (c : Controller)
  : Controller + Controller :=
  match effective_schema submit with
  | Some validate =>
      match validate values with
      | Some record => inl (abort record c)
      | None => inr (enter_submitting values c)
      end
  | None => inr (enter_submitting values c)
  end.

(** Modelled from the spec: the persisted snapshot of the configured key is
    cleared, with [clearPersistedValues] of [persist.ts]; a failure of the
    storage is swallowed, and the state the helper leaves is kept. *)
Definition clear_snapshot (c : Controller) : Controller :=
  match persistKey options with
  | Some key => with_storage (clearPersistedValues g key (storage c)).2 c
  | None => c
  end.

(** Modelled from the spec: [Submitting -> Succeeded]. *)
Definition succeeded (values : TFieldValues) (result : TResult) (c : Controller)
  : Controller :=
  let c1 := with_formState
    {| isSubmitting := isSubmitting (formState c); isSubmitSuccessful := true;
       submitErrors := None; actionResult := Some result;
       isPending := isPending (formState c) |} c in
  let c2 := clear_snapshot c1 in
  let c3 := with_optimistic (fun st => Reconciler.confirm (Reconciler.data st) st) c2 in
  let c4 := log_callback (OnSuccess result) c3 in
  log_record {| payload := values; response := Some result; error := None;
                success := true |} c4.

(** Modelled from the spec: [Submitting -> FieldError].  [actionResult] holds
    "the full result from the last action invocation" ([types.ts]). *)
Definition field_error (values : TFieldValues) (result : TResult)
    (record : FieldErrorRecord) (c : Controller) : Controller :=
  let c1 := with_formState
    {| isSubmitting := isSubmitting (formState c); isSubmitSuccessful := false;
       submitErrors := Some record; actionResult := Some result;
       isPending := isPending (formState c) |} c in
  let c2 := with_optimistic Reconciler.rollback c1 in
  let c3 := log_callback (OnErrorResult result) c2 in
  log_record {| payload := values; response := Some result; error := None;
                success := false |} c3.

(** Modelled from the spec: [Submitting -> Threw].  As [FieldError] for the
    rollback and the snapshot, with [submitErrors] null. *)
Definition threw (values : TFieldValues) (thrown : JsValue) (c : Controller)
  : Controller :=
  let c1 := with_formState
    {| isSubmitting := isSubmitting (formState c); isSubmitSuccessful := false;
       submitErrors := None; actionResult := actionResult (formState c);
       isPending := isPending (formState c) |} c in
  let c2 := with_optimistic Reconciler.rollback c1 in
  let c3 := log_callback (OnErrorThrown thrown) c2 in
  log_record {| payload := values; response := None; error := Some thrown;
                success := false |} c3.

(** Modelled from the spec: every terminal state goes back to [Idle], with
    [isSubmitting] and [isPending] set false as the last step. *)
Definition to_idle (c : Controller) : Controller :=
  with_formState
    {| isSubmitting := false;
       isSubmitSuccessful := isSubmitSuccessful (formState c);
       submitErrors := submitErrors (formState c);
       actionResult := actionResult (formState c); isPending := false |} c.

(** Modelled from the spec: the outcome of the submit call is classified
    with the error mapper and committed. *)
Definition settle (values : TFieldValues) (outcome : Settled) (c : Controller)
  : Controller :=
  to_idle
    match outcome with
    | Resolved result =>
        match errorMapper options result with
        | None => succeeded values result c
        | Some record => field_error values result record c
        end
    | Rejected thrown => threw values thrown c
    end.

(** Modelled from the spec: one run of the handler that [handleSubmit()]
    returns, on the current field values. *)
Definition handleSubmit (submit : SubmitFunction) (values : TFieldValues)
    (c : Controller) : Controller :=
  match start submit values c with
  | inl aborted => aborted
  | inr submitting => settle values (invoke submit values) (log_call values submitting)
  end.

(** Modelled from the spec: the user's explicit call of
    [optimistic.rollback()]. *)
Definition rollback (c : Controller) : Controller :=
  with_optimistic Reconciler.rollback c.

(** Modelled from the spec: what happens to a mounted form; a submission
    with the submit function and field values of that moment, or an explicit
    rollback. *)
Inductive Event : Type :=
  | Submit (submit : SubmitFunction) (values : TFieldValues)
  | Rollback.

Definition step (c : Controller) (ev : Event) : Controller :=
  match ev with
  | Submit submit values => handleSubmit submit values c
  | Rollback => rollback c
  end.

Definition run (events : list Event) (c : Controller) : Controller :=
  fold_left step events c.

(** How a submission ends, read off the collaborators alone. *)
Definition validation_fails (submit : SubmitFunction) (values : TFieldValues)
    (record : FieldErrorRecord) : Prop :=
  exists validate, effective_schema submit = Some validate /\ validate values = Some record.

Definition validation_passes (submit : SubmitFunction) (values : TFieldValues) : Prop :=
  match effective_schema submit with
  | Some validate => validate values = None
  | None => True
  end.

Definition ends_succeeded (submit : SubmitFunction) (values : TFieldValues) : Prop :=
  validation_passes submit values /\
  exists result, invoke submit values = Resolved result /\ errorMapper options result = None.

Definition ends_field_error (submit : SubmitFunction) (values : TFieldValues)
    (record : FieldErrorRecord) : Prop :=
  validation_passes submit values /\
  exists result, invoke submit values = Resolved result /\
                 errorMapper options result = Some record.

Definition ends_threw (submit : SubmitFunction) (values : TFieldValues) : Prop :=
  validation_passes submit values /\
  exists thrown, invoke submit values = Rejected thrown.

(** The same as a function, for the submissions that confirm a value. *)
Definition confirms (submit : SubmitFunction) (values : TFieldValues) : bool :=
  match effective_schema submit with
  | Some validate => bool_decide (validate values = None)
  | None => true
  end &&
  match invoke submit values with
  | Resolved result => bool_decide (errorMapper options result = None)
  | Rejected _ => false
  end.

(** The value that the submissions of a history have confirmed: each
    submission that ends in success confirms the reducer's value over the
    value confirmed before it. *)
Definition confirmed_by (reducer : TOptimistic -> TFieldValues -> TOptimistic)
    (initial : TOptimistic) (events : list Event) : TOptimistic :=
  fold_left
    (fun current ev =>
       match ev with
       | Submit submit values =>
           if confirms submit values then reducer current values else current
       | Rollback => current
       end)
    events initial.

(** An event that rolls back: the explicit call, or a submission that ends
    in a field-error result or throws. *)
Definition rolls_back (ev : Event) : Prop :=
  ev = Rollback
  \/ exists submit values,
       ev = Submit submit values
       /\ ((exists record, ends_field_error submit values record)
           \/ ends_threw submit values).

End Lifecycle.

(** The default error mapper as the controller's classification reads it:
    an [ErrorMapper] returns a record, or "null or undefined if there are no
    errors" ([types.ts]). *)
Definition default_errorMapper (result : JsValue) : option FieldErrorRecord :=
  match defaultErrorMapper result with
  | Normal v => if not_nullish v then Some v else None
  | Throw _ => None
  end.

Arguments Settled : clear implicits.
Arguments Schema : clear implicits.
Arguments SubmitFunction : clear implicits.
Arguments Options : clear implicits.
Arguments Callback : clear implicits.
Arguments Controller : clear implicits.
Arguments Event : clear implicits.

End Controller.

(** ** The scenarios of the specification and of the tests *)

Module Scenario.

Import Controller.

(** The signup form of [client-validation.test.ts]. *)
Record Signup : Type := { email : string; password : string }.

Fixpoint has_at_sign (text : string) : bool :=
  match text with
  | EmptyString => false
  | String c rest => String.eqb (String c EmptyString) "@" || has_at_sign rest
  end.

(** A stand-in for [signupSchema] behind the validation adapter: an address
    needs an [@], a password eight characters. *)
Definition signupSchema : Schema Signup := fun values =>
  let email_errors :=
    if has_at_sign (email values) then []
    else [("email", arr [VString "Invalid email address"])] in
  let password_errors :=
    if (8 <=? String.length (password values))%nat then []
    else [("password", arr [VString "Password must be at least 8 characters"])] in
  match (email_errors ++ password_errors)%list with
  | [] => None
  | errors => Some (obj errors)
  end.

Definition createSuccessAction : SubmitFunction Signup JsValue := {|
  invoke := fun _ => Resolved (obj [("success", VBool true)]);
  attached_schema := None;
|}.

(** An action made by [withZod]: the schema travels with it. *)
Definition withZod_action : SubmitFunction Signup JsValue := {|
  invoke := fun _ => Resolved (obj [("success", VBool true)]);
  attached_schema := Some signupSchema;
|}.

Definition createErrorAction : SubmitFunction Signup JsValue := {|
  invoke := fun _ => Resolved (obj [("errors", obj [("email", arr [VString "taken"])])]);
  attached_schema := None;
|}.

Definition createThrowingAction : SubmitFunction Signup JsValue := {|
  invoke := fun _ => Rejected (obj [("message", VString "Network failure")]);
  attached_schema := None;
|}.

Definition signup_options (explicit : option (Schema Signup)) (key : option string)
  : Options Signup JsValue unit := {|
  persistKey := key;
  errorMapper := default_errorMapper;
  schema := explicit;
  optimisticKey := None;
  optimisticData := None;
  optimisticInitial := tt;
|}.

(** The todo item of the optimistic tests (scenario C). *)
Record TodoItem : Type := { id : string; title : string; completed : bool }.

Definition INITIAL_TODO : TodoItem :=
  {| id := "todo-1"; title := "Buy groceries"; completed := false |}.

(** [(current, formValues) => ({ ...current, title: formValues.title })] *)
Definition merge_title (current : TodoItem) (formValues : string) : TodoItem :=
  {| id := id current; title := formValues; completed := completed current |}.

Definition todo_options : Options string JsValue TodoItem := {|
  persistKey := None;
  errorMapper := default_errorMapper;
  schema := None;
  optimisticKey := Some "todo-1";
  optimisticData := Some merge_title;
  optimisticInitial := INITIAL_TODO;
|}.

Definition createUpdateTodoAction : SubmitFunction string JsValue := {|
  invoke := fun _ => Resolved (obj [("success", VBool true)]);
  attached_schema := None;
|}.

Definition createErrorTodoAction : SubmitFunction string JsValue := {|
  invoke := fun _ =>
    Resolved (obj [("errors", obj [("title", arr [VString "Title is required"])])]);
  attached_schema := None;
|}.

Definition createThrowingTodoAction : SubmitFunction string JsValue := {|
  invoke := fun _ => Rejected (obj [("message", VString "Network error")]);
  attached_schema := None;
|}.

End Scenario.

(** ** react-shim.ts *)

Module ReactShim.

(** [a ?? b] *)
Definition coalesce (a b : JsValue) : JsValue :=
  if not_nullish a then a else b.

(** [(React as Record<string, unknown>).useActionState ?? undefined], for
    the module object [React]. *)
Definition useActionState (React : JsValue) : completion JsValue :=
  hook ← js_get React "useActionState";
  Normal (coalesce hook VUndefined).

(** [(React as Record<string, unknown>).useOptimistic ?? undefined] *)
Definition useOptimistic (React : JsValue) : completion JsValue :=
  hook ← js_get React "useOptimistic";
  Normal (coalesce hook VUndefined).

(** [typeof useOptimistic === 'function'] *)
Definition hasUseOptimistic (React : JsValue) : completion bool :=
  hook ← useOptimistic React;
  Normal (String.eqb (typeof hook) "function").

(** [typeof useActionState === 'function'] *)
Definition hasUseActionState (React : JsValue) : completion bool :=
  hook ← useActionState React;
  Normal (String.eqb (typeof hook) "function").

End ReactShim.

(** ** apps/docs/app/examples/login/actions.ts *)

Module LoginExample.

(** What [loginSchema.safeParse] gives: the parsed data, or an error whose
    [flatten().fieldErrors] is an object with the given properties. *)
Inductive SafeParse : Type :=
  | ParseSuccess (email password : string)
  | ParseError (fieldErrors : list (string * JsValue)).

(** [Object.fromEntries(formData)] for text entries: of two entries with
    the same name the later one stays. *)
Definition fromEntries (formData : list (string * string)) : JsValue :=
  obj (map (fun entry => (entry.1, VString entry.2)) (rev formData)).

Section Login.

(** [loginSchema.safeParse], of the schema library. *)
Variable safeParse : JsValue -> SafeParse.

(** [loginAction(prevState, formData)], as the value its promise resolves
    to; the simulated network delay is left out. *)
Definition loginAction (prevState : JsValue) (formData : list (string * string)) : JsValue :=
  match safeParse (fromEntries formData) with
  | ParseError fieldErrors => obj [("errors", obj fieldErrors)]
  | ParseSuccess email _ =>
      if String.eqb email "taken@example.com"
      then obj [("errors", obj [("email", arr [VString "This email is already registered"])])]
      else obj [("success", VBool true)]
  end.

End Login.

(** [loginAction] as a function value: it declares two parameters. *)
Definition loginAction_function : ServerAction :=
  {| action_length := 2; action_props := [] |}.

(** A reader for the runs below: it looks only for an [@] in the email and
    for eight characters in the password. *)
Definition sample_safeParse (data : JsValue) : SafeParse :=
  match js_get data "email", js_get data "password" with
  | Normal (VString email), Normal (VString password) =>
      if Scenario.has_at_sign email && (8 <=? String.length password)%nat
      then ParseSuccess email password
      else ParseError [("email", arr [VString "Please enter a valid email address"])]
  | _, _ => ParseError [("email", arr [VString "Required"])]
  end.

End LoginExample.

(* ===================================================================== *)
(** * Part II: theorems                                                    *)
(* ===================================================================== *)

(** ** types.ts: the error mapper *)

Section ErrorMapperFacts.

(** A property that reads as a truthy value is seen by [in]. *)
Lemma truthy_get_in (kind : ObjKind) (props : list (string * JsValue)) (key : string)
    (v : JsValue) :
  js_get (VObject kind props) key = Normal v -> truthy v = true ->
  js_in key (VObject kind props) = Normal true.
Proof.
  simpl. intros [= <-] Ht. f_equal.
  destruct (lookup_prop key props) as [x|] eqn:E; simpl in *.
  - reflexivity.
  - discriminate.
Qed.

(** The mapper on an object, by the value its [errors] property reads as. *)
Lemma defaultErrorMapper_object (kind : ObjKind) (props : list (string * JsValue)) :
  defaultErrorMapper (VObject kind props) =
  match lookup_prop "errors" props with
  | Some errors =>
      if truthy errors && String.eqb (typeof errors) "object"
      then Normal errors else Normal VNull
  | None => Normal VNull
  end.
Proof.
  unfold defaultErrorMapper. simpl.
  destruct (lookup_prop "errors" props) as [e|] eqn:E; simpl.
  - destruct (truthy e); simpl; [|reflexivity].
    destruct (String.eqb (typeof e) "object"); reflexivity.
  - reflexivity.
Qed.

Lemma defaultErrorMapper_not_object (v : JsValue) :
  (forall kind props, v <> VObject kind props) -> defaultErrorMapper v = Normal VNull.
Proof.
  intros Hv.
  destruct v; try (exfalso; eapply Hv; reflexivity);
    unfold defaultErrorMapper; simpl; repeat case_match; reflexivity.
Qed.

(** The mapper never throws: the guards keep [in] away from primitives. *)
Lemma defaultErrorMapper_total (r : JsValue) :
  exists v, defaultErrorMapper r = Normal v.
Proof.
  destruct r as [| | | | | | |kind props|];
    try (eexists; apply defaultErrorMapper_not_object; discriminate).
  rewrite defaultErrorMapper_object.
  destruct (lookup_prop _ _); [destruct (_ && _)|]; eauto.
Qed.

End ErrorMapperFacts.

(** C2.  For every result [r]: when [r] is a non-null value of type
    ["object"] whose [errors] property reads as a truthy value of type
    ["object"], the default error mapper returns that value; for every other
    [r] it returns [null].  It never throws. *)
Theorem defaultErrorMapper_spec (r : JsValue) :
  (forall errors,
      r <> VNull -> typeof r = "object" ->
      js_get r "errors" = Normal errors ->
      truthy errors = true -> typeof errors = "object" ->
      defaultErrorMapper r = Normal errors)
  /\
  (~ (exists errors,
         r <> VNull /\ typeof r = "object" /\
         js_get r "errors" = Normal errors /\
         truthy errors = true /\ typeof errors = "object") ->
   defaultErrorMapper r = Normal VNull).
Proof.
  split.
  - intros errors Hnull Hty Hget Ht Hte.
    destruct r; simpl in Hty; try discriminate; try congruence.
    rewrite defaultErrorMapper_object.
    simpl in Hget. destruct (lookup_prop "errors" props) as [e|]; simpl in Hget.
    + injection Hget as ->. rewrite Ht, Hte. reflexivity.
    + injection Hget as <-. discriminate.
  - intros Hno.
    destruct r as [| | | | | | |kind props|];
      try (apply defaultErrorMapper_not_object; discriminate).
    rewrite defaultErrorMapper_object.
    destruct (lookup_prop "errors" props) as [e|] eqn:E; [|reflexivity].
    destruct (truthy e) eqn:Ht; [|reflexivity].
    destruct (String.eqb (typeof e) "object") eqn:Hte; [|reflexivity].
    exfalso. apply Hno. exists e. repeat split.
    + discriminate.
    + simpl. rewrite E. reflexivity.
    + exact Ht.
    + apply String.eqb_eq. exact Hte.
Qed.

Lemma defaultErrorMapper_spec_witness :
  defaultErrorMapper (obj [("errors", obj [("email", arr [VString "taken"])])])
    = Normal (obj [("email", arr [VString "taken"])])
  /\ defaultErrorMapper (obj [("success", VBool true)]) = Normal VNull.
Proof.
  split.
  - apply (proj1 (defaultErrorMapper_spec _)).
    + discriminate.
    + reflexivity.
    + reflexivity.
    + reflexivity.
    + reflexivity.
  - apply (proj2 (defaultErrorMapper_spec _)).
    intros (errors & _ & _ & Hget & Ht & _).
    simpl in Hget. injection Hget as <-. discriminate.
Defined.

(** The [null] side: [null], [undefined], primitives, and objects without
    an [errors] property. *)
Example defaultErrorMapper_null : defaultErrorMapper VNull = Normal VNull.
Proof. reflexivity. Qed.

Example defaultErrorMapper_undefined : defaultErrorMapper VUndefined = Normal VNull.
Proof. reflexivity. Qed.

Example defaultErrorMapper_primitives :
  defaultErrorMapper (VString "errors") = Normal VNull
  /\ defaultErrorMapper (VNumber (Finite 1 1)) = Normal VNull
  /\ defaultErrorMapper (VBool true) = Normal VNull.
Proof. repeat split. Qed.

Example defaultErrorMapper_no_errors_property :
  defaultErrorMapper (obj [("success", VBool true); ("data", VString "ok")]) = Normal VNull.
Proof. reflexivity. Qed.

(** A function is not of type ["object"], whatever is attached to it. *)
Example defaultErrorMapper_function :
  defaultErrorMapper (VFunction 1 [("errors", obj [])]) = Normal VNull.
Proof. reflexivity. Qed.

(** C10.  The default error mapper hands back the [errors] property itself,
    whatever it holds: [{errors: {}}] and [{errors: []}] come out as non-null
    field-error records, [{errors: null}] and [{errors: "message"}] as
    [null]. *)
Theorem defaultErrorMapper_contents_unread :
  (forall kind props others,
      defaultErrorMapper (obj (("errors", VObject kind props) :: others))
      = Normal (VObject kind props))
  /\ defaultErrorMapper (obj [("errors", obj [])]) = Normal (obj [])
  /\ defaultErrorMapper (obj [("errors", arr [])]) = Normal (arr [])
  /\ Controller.default_errorMapper (obj [("errors", obj [])]) = Some (obj [])
  /\ Controller.default_errorMapper (obj [("errors", arr [])]) = Some (arr [])
  /\ defaultErrorMapper (obj [("errors", VNull)]) = Normal VNull
  /\ defaultErrorMapper (obj [("errors", VString "message")]) = Normal VNull
  /\ Controller.default_errorMapper (obj [("errors", VNull)]) = None
  /\ Controller.default_errorMapper (obj [("errors", VString "message")]) = None.
Proof.
  split; [|repeat split].
  intros kind props others. unfold obj. rewrite defaultErrorMapper_object. reflexivity.
Qed.

(** ** types.ts: the calling convention *)

(** C9.  [isFormDataAction(action)] is true exactly when [action.length] is
    at least 2; the classifier picks the [(prevState, formData)] convention
    in that case and the single-payload convention otherwise. *)
Theorem isFormDataAction_spec (action : ServerAction) :
  (isFormDataAction action = true <-> 2 <= action_length action)
  /\ (callingConvention action = FormDataServerAction <-> 2 <= action_length action)
  /\ (callingConvention action = JsonServerAction <-> action_length action < 2).
Proof.
  unfold callingConvention, isFormDataAction.
  destruct (Nat.leb_spec 2 (action_length action)) as [H|H].
  - repeat split; intros; try lia; try reflexivity; discriminate.
  - repeat split; intros; try lia; try reflexivity; discriminate.
Qed.

Lemma isFormDataAction_spec_witness :
  isFormDataAction {| action_length := 2; action_props := [] |} = true
  /\ callingConvention {| action_length := 1; action_props := [] |} = JsonServerAction.
Proof.
  split.
  - apply (proj1 (isFormDataAction_spec _)). simpl. lia.
  - apply (proj2 (proj2 (isFormDataAction_spec _))). simpl. lia.
Defined.

Example isFormDataAction_arities :
  map (fun n => isFormDataAction {| action_length := n; action_props := [] |}) [0; 1; 2; 3]
  = [false; false; true; true].
Proof. reflexivity. Qed.

(** The schema that [withZod] attaches is found, and so is its absence. *)
Example hasAttachedSchema_examples :
  hasAttachedSchema {| action_length := 1; action_props := [("__schema", obj [])] |}
    = Normal true
  /\ hasAttachedSchema {| action_length := 1; action_props := [("__schema", VNull)] |}
    = Normal false
  /\ hasAttachedSchema {| action_length := 2; action_props := [] |} = Normal false.
Proof. repeat split. Qed.

(** ** persist.ts: the storage helpers *)

Section PersistFacts.

Context {S : Type}.
Variable JSON_parse : string -> completion JsValue.
Variable JSON_stringify : JsValue -> completion string.
Variable g : Global S.

(** The guard has three outcomes: the read of [window.sessionStorage]
    throws, there is no medium, or there is one. *)
Lemma isClient_cases :
  (exists thrown, isClient g = Throw thrown /\ medium g = None)
  \/ (isClient g = Normal false /\ medium g = None)
  \/ (exists storage, isClient g = Normal true /\ medium g = Some storage).
Proof.
  unfold isClient, medium. destruct (window g) as [w|]; [|right; left; split; reflexivity].
  destruct (sessionStorage w) as [[storage|]|thrown]; simpl.
  - right. right. exists storage. split; reflexivity.
  - right. left. split; reflexivity.
  - left. exists thrown. split; reflexivity.
Qed.

Lemma isClient_true (storage : Storage S) :
  medium g = Some storage -> isClient g = Normal true.
Proof.
  intros Hm. destruct isClient_cases as [(e & _ & H)|[(_ & H)|(st & H & _)]];
    [congruence|congruence|exact H].
Qed.

Lemma isClient_false : readable g -> medium g = None -> isClient g = Normal false.
Proof.
  intros [client Hc] Hm.
  destruct isClient_cases as [(e & H & _)|[(H & _)|(st & _ & H)]];
    [congruence|exact H|congruence].
Qed.

(** The guard in front of each helper. *)
Lemma loadPersistedValues_guard (key : string) (s : S) :
  loadPersistedValues JSON_parse g key s =
  match isClient g with
  | Throw thrown => (Throw thrown, s)
  | Normal false => (Normal VNull, s)
  | Normal true =>
      etry
        (let! raw := window_sessionStorage g (fun storage => getItem storage key) in
         match raw with
         | None => eret VNull
         | Some text =>
             if String.eqb text EmptyString then eret VNull
             else lift (JSON_parse text)
         end)
        (fun _ => eret VNull) s
  end.
Proof.
  unfold loadPersistedValues, ebind, lift. destruct (isClient g) as [[|]|]; reflexivity.
Qed.

Lemma savePersistedValues_guard (key : string) (values : JsValue) (s : S) :
  savePersistedValues JSON_stringify g key values s =
  match isClient g with
  | Throw thrown => (Throw thrown, s)
  | Normal false => (Normal tt, s)
  | Normal true =>
      etry
        (window_sessionStorage g (fun storage =>
           let! text := lift (JSON_stringify values) in
           setItem storage key text))
        (fun _ => eret tt) s
  end.
Proof.
  unfold savePersistedValues. unfold ebind at 1. unfold lift at 1.
  destruct (isClient g) as [[|]|]; reflexivity.
Qed.

Lemma clearPersistedValues_guard (key : string) (s : S) :
  clearPersistedValues g key s =
  match isClient g with
  | Throw thrown => (Throw thrown, s)
  | Normal false => (Normal tt, s)
  | Normal true =>
      etry (window_sessionStorage g (fun storage => removeItem storage key))
        (fun _ => eret tt) s
  end.
Proof.
  unfold clearPersistedValues, ebind, lift. destruct (isClient g) as [[|]|]; reflexivity.
Qed.

(** With a medium, [window.sessionStorage.m(...)] is the medium's method. *)
Lemma window_sessionStorage_medium {A} (storage : Storage S) (call : Storage S -> Eff S A) :
  medium g = Some storage -> window_sessionStorage g call = call storage.
Proof.
  unfold medium, window_sessionStorage.
  destruct (window g) as [w|]; [|discriminate].
  destruct (sessionStorage w) as [[st|]|]; try discriminate.
  intros [= ->]. reflexivity.
Qed.

(** A [try] whose handler returns normally returns normally. *)
Lemma etry_normal {A} (body : Eff S A) (a : A) (s : S) :
  exists v, (etry body (fun _ => eret a) s).1 = Normal v.
Proof.
  unfold etry, eret. destruct (body s) as [[v|e] s']; simpl; eauto.
Qed.

Lemma loadPersistedValues_total (key : string) (s : S) :
  readable g -> exists v, (loadPersistedValues JSON_parse g key s).1 = Normal v.
Proof.
  intros [client Hc]. rewrite loadPersistedValues_guard, Hc.
  destruct client; [apply etry_normal|]. exists VNull. reflexivity.
Qed.

Lemma savePersistedValues_total (key : string) (values : JsValue) (s : S) :
  readable g -> (savePersistedValues JSON_stringify g key values s).1 = Normal tt.
Proof.
  intros [client Hc]. rewrite savePersistedValues_guard, Hc.
  destruct client; [|reflexivity].
  destruct (etry_normal
    (window_sessionStorage g (fun storage =>
       let! text := lift (JSON_stringify values) in
       setItem storage key text)) tt s) as [[] H].
  exact H.
Qed.

Lemma clearPersistedValues_total (key : string) (s : S) :
  readable g -> (clearPersistedValues g key s).1 = Normal tt.
Proof.
  intros [client Hc]. rewrite clearPersistedValues_guard, Hc.
  destruct client; [|reflexivity].
  destruct (etry_normal
    (window_sessionStorage g (fun storage => removeItem storage key)) tt s) as [[] H].
  exact H.
Qed.

(** With a medium, [loadPersistedValues] by what [getItem] gives. *)
Lemma loadPersistedValues_medium (storage : Storage S) (key : string) (s : S) :
  medium g = Some storage ->
  (loadPersistedValues JSON_parse g key s).1 =
  match (getItem storage key s).1 with
  | Normal (Some text) =>
      if String.eqb text EmptyString then Normal VNull
      else match JSON_parse text with
           | Normal v => Normal v
           | Throw _ => Normal VNull
           end
  | Normal None => Normal VNull
  | Throw _ => Normal VNull
  end.
Proof.
  intros Hm. rewrite loadPersistedValues_guard, (isClient_true _ Hm).
  rewrite (window_sessionStorage_medium _ _ Hm).
  unfold etry, ebind, eret, lift.
  destruct (getItem storage key s) as [[[text|]|e] s']; simpl; try reflexivity.
  destruct (String.eqb text EmptyString); simpl; [reflexivity|].
  destruct (JSON_parse text); reflexivity.
Qed.

(** X14.  Where the read of [window.sessionStorage] does not throw, the
    three helpers return normally whatever the medium does:
    [loadPersistedValues] gives [null] without a medium, for an absent key,
    for a stored text that [JSON.parse] rejects and when [getItem] throws;
    [savePersistedValues] and [clearPersistedValues] leave the state alone
    without a medium and add nothing after a throwing [setItem] or
    [removeItem]. *)
Theorem persist_helpers_never_throw_when_readable (key : string) (values : JsValue) (s : S) :
  readable g ->
  (exists v, (loadPersistedValues JSON_parse g key s).1 = Normal v)
  /\ (savePersistedValues JSON_stringify g key values s).1 = Normal tt
  /\ (clearPersistedValues g key s).1 = Normal tt
  /\ (medium g = None ->
      loadPersistedValues JSON_parse g key s = (Normal VNull, s)
      /\ savePersistedValues JSON_stringify g key values s = (Normal tt, s)
      /\ clearPersistedValues g key s = (Normal tt, s))
  /\ (forall storage, medium g = Some storage ->
      (getItem storage key s).1 = Normal None ->
      (loadPersistedValues JSON_parse g key s).1 = Normal VNull)
  /\ (forall storage text thrown, medium g = Some storage ->
      (getItem storage key s).1 = Normal (Some text) ->
      JSON_parse text = Throw thrown ->
      (loadPersistedValues JSON_parse g key s).1 = Normal VNull)
  /\ (forall storage thrown, medium g = Some storage ->
      (getItem storage key s).1 = Throw thrown ->
      (loadPersistedValues JSON_parse g key s).1 = Normal VNull)
  /\ (forall storage text thrown, medium g = Some storage ->
      JSON_stringify values = Normal text ->
      (setItem storage key text s).1 = Throw thrown ->
      savePersistedValues JSON_stringify g key values s
      = (Normal tt, (setItem storage key text s).2))
  /\ (forall storage thrown, medium g = Some storage ->
      (removeItem storage key s).1 = Throw thrown ->
      clearPersistedValues g key s = (Normal tt, (removeItem storage key s).2)).
Proof.
  intros Hr.
  split; [apply loadPersistedValues_total, Hr|].
  split; [apply savePersistedValues_total, Hr|].
  split; [apply clearPersistedValues_total, Hr|].
  split.
  { intros Hm.
    rewrite loadPersistedValues_guard, savePersistedValues_guard, clearPersistedValues_guard.
    rewrite (isClient_false Hr Hm). repeat split. }
  split.
  { intros storage Hm Hget. rewrite (loadPersistedValues_medium _ _ _ Hm), Hget.
    reflexivity. }
  split.
  { intros storage text thrown Hm Hget Hparse.
    rewrite (loadPersistedValues_medium _ _ _ Hm), Hget, Hparse.
    destruct (String.eqb text EmptyString); reflexivity. }
  split.
  { intros storage thrown Hm Hget. rewrite (loadPersistedValues_medium _ _ _ Hm), Hget.
    reflexivity. }
  split.
  { intros storage text thrown Hm Hstr Hset.
    rewrite savePersistedValues_guard, (isClient_true _ Hm).
    rewrite (window_sessionStorage_medium _ _ Hm).
    unfold etry, ebind, lift, eret. rewrite Hstr.
    destruct (setItem storage key text s) as [[u|e] s']; simpl in *; [discriminate|].
    reflexivity. }
  { intros storage thrown Hm Hrem.
    rewrite clearPersistedValues_guard, (isClient_true _ Hm).
    unfold etry, eret.
    rewrite (window_sessionStorage_medium _ _ Hm).
    destruct (removeItem storage key s) as [[u|e] s']; simpl in *; [discriminate|].
    reflexivity. }
Qed.

End PersistFacts.

(** C6.  The helpers do not hold what is asked of them for every condition
    of the storage: [isClient()] reads [window.sessionStorage] in front of
    each [try], so in a window where that read throws, whatever is thrown
    leaves [loadPersistedValues], [savePersistedValues] and
    [clearPersistedValues], for every key, and the state is untouched. *)
Theorem persist_helpers_throw_when_storage_read_throws {S : Type}
    (JSON_parse : string -> completion JsValue)
    (JSON_stringify : JsValue -> completion string)
    (thrown : JsValue) (key : string) (values : JsValue) (s : S) :
  let g := {| window := Some {| sessionStorage := Throw thrown |} |} in
  isClient g = Throw thrown
  /\ loadPersistedValues JSON_parse g key s = (Throw thrown, s)
  /\ savePersistedValues JSON_stringify g key values s = (Throw thrown, s)
  /\ clearPersistedValues g key s = (Throw thrown, s).
Proof.
  intros g.
  rewrite loadPersistedValues_guard, savePersistedValues_guard, clearPersistedValues_guard.
  repeat split.
Qed.

(** In a window where access to storage is denied, a load does not give
    [null]: it throws the SecurityError. *)
Example loadPersistedValues_storage_denied :
  loadPersistedValues parse_literal storage_denied "test-form" ∅
  = (Throw SecurityError, ∅).
Proof. reflexivity. Qed.

Lemma persist_helpers_never_throw_when_readable_witness :
  loadPersistedValues parse_literal server "test-form" (∅ : gmap string string)
    = (Normal VNull, ∅)
  /\ (loadPersistedValues parse_literal (browser (web_storage 100)) "nonexistent"
        ({["test-form" := "true"]} : gmap string string)).1 = Normal VNull
  /\ (loadPersistedValues parse_literal (browser (web_storage 100)) "bad-json"
        ({["bad-json" := "{invalid"]} : gmap string string)).1 = Normal VNull
  /\ (loadPersistedValues parse_literal (browser disabled_storage) "test-form"
        (∅ : gmap string string)).1 = Normal VNull
  /\ savePersistedValues stringify_literal (browser (web_storage 3)) "test-form"
        (VBool true) (∅ : gmap string string) = (Normal tt, ∅)
  /\ clearPersistedValues (browser disabled_storage) "test-form"
        ({["test-form" := "true"]} : gmap string string)
     = (Normal tt, {["test-form" := "true"]}).
Proof.
  assert (Hserver : readable server) by (exists false; reflexivity).
  assert (Hbrowser : forall storage, readable (browser storage))
    by (intros storage; exists true; reflexivity).
  split.
  { apply (persist_helpers_never_throw_when_readable parse_literal stringify_literal
             server "test-form" VNull ∅ Hserver). reflexivity. }
  split.
  { apply (proj1 (proj2 (proj2 (proj2 (proj2
      (persist_helpers_never_throw_when_readable parse_literal stringify_literal
         (browser (web_storage 100)) "nonexistent" VNull {["test-form" := "true"]}
         (Hbrowser _)))))))
      with (storage := web_storage 100); reflexivity. }
  split.
  { apply (proj1 (proj2 (proj2 (proj2 (proj2 (proj2
      (persist_helpers_never_throw_when_readable parse_literal stringify_literal
         (browser (web_storage 100)) "bad-json" VNull {["bad-json" := "{invalid"]}
         (Hbrowser _))))))))
      with (storage := web_storage 100) (text := "{invalid") (thrown := SyntaxError);
      reflexivity. }
  split.
  { apply (proj1 (proj2 (proj2 (proj2 (proj2 (proj2 (proj2
      (persist_helpers_never_throw_when_readable parse_literal stringify_literal
         (browser disabled_storage) "test-form" VNull ∅ (Hbrowser _)))))))))
      with (storage := disabled_storage) (thrown := SecurityError); reflexivity. }
  split.
  { etransitivity.
    - apply (proj1 (proj2 (proj2 (proj2 (proj2 (proj2 (proj2 (proj2
        (persist_helpers_never_throw_when_readable parse_literal stringify_literal
           (browser (web_storage 3)) "test-form" (VBool true) ∅ (Hbrowser _))))))))))
        with (storage := web_storage 3) (text := "true") (thrown := QuotaExceededError);
        reflexivity.
    - reflexivity. }
  { etransitivity.
    - apply (proj2 (proj2 (proj2 (proj2 (proj2 (proj2 (proj2 (proj2
        (persist_helpers_never_throw_when_readable parse_literal stringify_literal
           (browser disabled_storage) "test-form" VNull {["test-form" := "true"]}
           (Hbrowser _))))))))))
        with (storage := disabled_storage) (thrown := SecurityError); reflexivity.
    - reflexivity. }
Defined.

(** The runs of [persist.test.ts], on the literal fragment of JSON. *)
Example saves_and_loads :
  let s := (savePersistedValues stringify_literal (browser (web_storage 100)) "test-form"
              (VBool true) ∅).2 in
  (loadPersistedValues parse_literal (browser (web_storage 100)) "test-form" s).1
  = Normal (VBool true).
Proof. reflexivity. Qed.

(** A [window] without [sessionStorage]: nothing is read or written. *)
Example window_without_storage_is_inert :
  loadPersistedValues parse_literal window_without_storage "test-form"
    {["test-form" := "true"]} = (Normal VNull, {["test-form" := "true"]})
  /\ savePersistedValues stringify_literal window_without_storage "test-form"
       (VBool true) ∅ = (Normal tt, ∅)
  /\ clearPersistedValues window_without_storage "test-form"
       {["test-form" := "true"]} = (Normal tt, {["test-form" := "true"]}).
Proof. repeat split. Qed.

Example clears_persisted_values :
  let s1 := (savePersistedValues stringify_literal (browser (web_storage 100)) "test-form"
               (VBool true) ∅).2 in
  let s2 := (clearPersistedValues (browser (web_storage 100)) "test-form" s1).2 in
  (loadPersistedValues parse_literal (browser (web_storage 100)) "test-form" s2).1
  = Normal VNull.
Proof. reflexivity. Qed.

(** ** persist.ts: the debounce utility *)

Section DebounceFacts.

Context {TArgs W : Type}.
Variable fn : TArgs -> W -> completion unit * W.
Variable delay : nat.

Lemma now_debounce (args : TArgs) (l : Loop TArgs W) : now (debounce delay args l) = now l.
Proof. unfold debounce. destruct (timer l); reflexivity. Qed.

Lemma now_advance (ms : nat) (l : Loop TArgs W) : now (advance fn ms l) = now l + ms.
Proof. reflexivity. Qed.

Lemma advance_quiet (w : W) (ms : nat) (l : Loop TArgs W) :
  quiet w l -> quiet w (advance fn ms l).
Proof.
  intros (Hp & Hf & Hw). unfold advance, quiet. rewrite Hp. simpl.
  auto.
Qed.

Lemma debounce_quiet (w : W) (args : TArgs) (l : Loop TArgs W) :
  quiet w l -> armed (now l + delay) args w (debounce delay args l).
Proof.
  intros (Hp & Hf & Hw). unfold debounce, armed.
  destruct (timer l) as [id|]; simpl; rewrite Hp; simpl;
    eexists; repeat split; try eassumption; lia.
Qed.

Lemma debounce_armed (due : nat) (a a' : TArgs) (w : W) (l : Loop TArgs W) :
  armed due a w l -> armed (now l + delay) a' w (debounce delay a' l).
Proof.
  intros (id & Hp & Ht & Hf & Hn & Hw). unfold debounce, armed.
  rewrite Ht. simpl. rewrite Hp.
  rewrite filter_cons_False by (simpl; intros H; apply H; reflexivity).
  rewrite filter_nil. simpl.
  eexists; repeat split; try eassumption; lia.
Qed.

Lemma advance_armed_early (due : nat) (a : TArgs) (w : W) (ms : nat) (l : Loop TArgs W) :
  armed due a w l -> now l + ms < due -> armed due a w (advance fn ms l).
Proof.
  intros (id & Hp & Ht & Hf & Hn & Hw) Hlt. unfold advance, armed.
  rewrite Hp. simpl. rewrite Hp.
  rewrite filter_cons_False by (simpl; lia).
  rewrite filter_nil. simpl.
  exists id. repeat split; try assumption. lia.
Qed.

Lemma advance_armed_late (due : nat) (a : TArgs) (w : W) (ms : nat) (l : Loop TArgs W) :
  armed due a w l -> due <= now l + ms -> spent fn due a w (advance fn ms l).
Proof.
  intros (id & Hp & Ht & Hf & Hn & Hw) Hle. unfold advance, spent.
  rewrite Hp. simpl. rewrite Hp.
  rewrite filter_cons_True by (simpl; lia).
  rewrite filter_nil. simpl.
  unfold callback. simpl. rewrite Hw.
  destruct (fn a w) as [outcome w'] eqn:E. simpl.
  rewrite Hp, Hf.
  rewrite filter_cons_False by (simpl; intros H; apply H; reflexivity).
  rewrite filter_nil. simpl.
  repeat split. f_equal. f_equal. lia.
Qed.

Lemma advance_spent (due : nat) (a : TArgs) (w : W) (ms : nat) (l : Loop TArgs W) :
  spent fn due a w l -> spent fn due a w (advance fn ms l).
Proof.
  intros (Hp & Hf & Hw). unfold advance, spent. rewrite Hp. simpl.
  auto.
Qed.

Lemma advances_spent (due : nat) (a : TArgs) (w : W) (pauses : list nat) (l : Loop TArgs W) :
  spent fn due a w l -> spent fn due a w (advances fn pauses l).
Proof.
  revert l. induction pauses as [|ms pauses IH]; intros l H; simpl; [exact H|].
  apply IH, advance_spent, H.
Qed.

(** An armed timeout fires in the first turn of the event loop at or after
    its due time, and not before. *)
Lemma advances_armed (due : nat) (a : TArgs) (w : W) (pauses : list nat) :
  forall (ms : nat) (l : Loop TArgs W),
  armed due a w l ->
  if (due <=? now l + (ms + sum_list pauses))%nat
  then spent fn due a w (advances fn (ms :: pauses) l)
  else armed due a w (advances fn (ms :: pauses) l).
Proof.
  induction pauses as [|ms' pauses IH]; intros ms l H.
  - simpl. destruct (Nat.leb_spec due (now l + (ms + 0))) as [Hle|Hlt].
    + apply advance_armed_late; [exact H|lia].
    + apply advance_armed_early; [exact H|lia].
  - change (advances fn (ms :: ms' :: pauses) l)
      with (advances fn (ms' :: pauses) (advance fn ms l)).
    destruct (Nat.le_gt_cases due (now l + ms)) as [Hle|Hlt].
    + assert (Hc : (due <=? now l + (ms + sum_list (ms' :: pauses)))%nat = true)
        by (apply Nat.leb_le; simpl; lia).
      rewrite Hc. apply advances_spent, advance_armed_late; assumption.
    + pose proof (IH ms' (advance fn ms l) (advance_armed_early _ _ _ _ _ H Hlt)) as IH'.
      rewrite now_advance in IH'.
      replace (now l + (ms + sum_list (ms' :: pauses)))
        with (now l + ms + (ms' + sum_list pauses)) by (simpl; lia).
      exact IH'.
Qed.

(** The time before a call changes nothing where nothing is due. *)
Lemma now_pass (pause : nat) (l : Loop TArgs W) : now (pass fn pause l) = now l + pause.
Proof. destruct pause; simpl; lia. Qed.

Lemma pass_quiet (w : W) (pause : nat) (l : Loop TArgs W) :
  quiet w l -> quiet w (pass fn pause l).
Proof. destruct pause; [trivial|apply advance_quiet]. Qed.

Lemma pass_armed_early (due : nat) (a : TArgs) (w : W) (pause : nat) (l : Loop TArgs W) :
  armed due a w l -> now l + pause < due -> armed due a w (pass fn pause l).
Proof. destruct pause; [trivial|apply advance_armed_early]. Qed.

Lemma last_cons_default {A} (xs : list A) :
  forall x d : A, List.last (x :: xs) d = List.last xs x.
Proof.
  induction xs as [|y xs IH]; intros x d; [reflexivity|].
  change (List.last (x :: y :: xs) d) with (List.last (y :: xs) d).
  rewrite (IH y d), (IH y x). reflexivity.
Qed.

(** A burst of calls, each within [delay] of the one before, leaves one
    timeout armed: the one of the last call. *)
Lemma burst_armed (w : W) (calls : list (nat * TArgs)) :
  forall (a : TArgs) (l : Loop TArgs W),
  armed (now l + delay) a w l ->
  Forall (fun call => call.1 < delay) calls ->
  let l' := burst fn delay calls l in
  armed (now l' + delay) (List.last (map snd calls) a) w l'
  /\ now l' = now l + sum_list (map fst calls).
Proof.
  induction calls as [|[pause args] calls IH]; intros a l H Hall.
  - simpl. split; [exact H|lia].
  - apply Forall_cons in Hall as [Hp Hall]. simpl in Hp.
    assert (Harmed : armed (now (debounce delay args (pass fn pause l)) + delay) args w
                       (debounce delay args (pass fn pause l))).
    { rewrite now_debounce. eapply debounce_armed.
      apply pass_armed_early; [exact H|lia]. }
    destruct (IH args _ Harmed Hall) as [IH1 IH2].
    cbn zeta in *. simpl burst. split.
    + change (map snd ((pause, args) :: calls)) with (args :: map snd calls).
      rewrite last_cons_default. exact IH1.
    + rewrite IH2, now_debounce, now_pass. simpl. lia.
Qed.

End DebounceFacts.

(** C8.  Trailing edge: after a burst of one or more calls in which every
    call after the first comes less than [delay] after the one before, [fn]
    has not run; it runs exactly once, in the first turn of the event loop
    that comes [delay] or more after the last call, with the arguments of
    that last call, and never again. *)
Theorem debounce_trailing_edge {TArgs W : Type}
    (fn : TArgs -> W -> completion unit * W) (delay start : nat) (w : W)
    (first : nat * TArgs) (rest : list (nat * TArgs)) :
  Forall (fun call => call.1 < delay) rest ->
  let l := burst fn delay (first :: rest) (fresh_loop start w) in
  let final := List.last (map snd rest) first.2 in
  fired l = []
  /\ now l = start + first.1 + sum_list (map fst rest)
  /\ forall (ms : nat) (pauses : list nat),
       let l' := advances fn (ms :: pauses) l in
       fired l' = (if (delay <=? ms + sum_list pauses)%nat
                   then [(now l + delay, final)] else [])
       /\ target l' = (if (delay <=? ms + sum_list pauses)%nat
                       then (fn final w).2 else w).
Proof.
  intros Hall l final.
  destruct first as [pause args].
  assert (Hq : quiet w (fresh_loop (TArgs := TArgs) start w)) by (repeat split).
  pose proof (debounce_quiet delay w args _ (pass_quiet fn w pause _ Hq)) as Ha.
  rewrite <- (now_debounce delay args) in Ha.
  destruct (burst_armed fn delay w rest args _ Ha Hall) as [Harmed Hnow].
  cbn zeta in Hnow.
  change (burst fn delay rest (debounce delay args (pass fn pause (fresh_loop start w))))
    with l in Hnow, Harmed.
  split; [|split].
  - destruct Harmed as (id & _ & _ & Hf & _). exact Hf.
  - rewrite Hnow, now_debounce, now_pass. reflexivity.
  - intros ms pauses l'.
    pose proof (advances_armed fn _ _ w pauses ms l Harmed) as H.
    fold l' in H.
    replace (now l + delay <=? now l + (ms + sum_list pauses))%nat
      with (delay <=? ms + sum_list pauses)%nat in H.
    2:{ destruct (Nat.leb_spec delay (ms + sum_list pauses));
        symmetry; [apply Nat.leb_le|apply Nat.leb_gt]; lia. }
    revert H. destruct (delay <=? ms + sum_list pauses)%nat; intros H.
    + unfold spent in H. destruct H as (_ & Hf & Hw). split; assumption.
    + unfold armed in H. destruct H as (id & _ & _ & Hf & _ & Hw). split; assumption.
Qed.

Lemma debounce_trailing_edge_witness :
  let fn := fun (_ : string) (count : nat) => (Normal tt, Datatypes.S count) in
  let l := burst fn 50 [(0, "hello"); (10, "world")] (fresh_loop 0 0) in
  fired l = []
  /\ fired (advances fn [49] l) = []
  /\ fired (advances fn [100] l) = [(60, "world")]
  /\ fired (advances fn [30; 30; 1000] l) = [(60, "world")]
  /\ target (advances fn [30; 30; 1000] l) = 1.
Proof.
  intros fn l.
  assert (Hall : Forall (fun call : nat * string => call.1 < 50) [(10, "world")]).
  { constructor; [simpl; lia|constructor]. }
  pose proof (debounce_trailing_edge fn 50 0 0 (0, "hello") [(10, "world")] Hall)
    as (H0 & _ & H).
  split; [exact H0|].
  split; [exact (proj1 (H 49 []))|].
  split; [exact (proj1 (H 100 []))|].
  split; [exact (proj1 (H 30 [30; 1000]))|exact (proj2 (H 30 [30; 1000]))].
Defined.

(** The two runs of [persist.test.ts]: three calls in a row fire once; of
    ['hello'] and ['world'] only ['world'] arrives. *)
Example debounces_function_calls :
  let fn := fun (_ : unit) (count : nat) => (Normal tt, Datatypes.S count) in
  let l := burst fn 50 [(0, tt); (0, tt); (0, tt)] (fresh_loop 0 0) in
  target l = 0 /\ target (advance fn 100 l) = 1.
Proof. split; reflexivity. Qed.

Example passes_arguments :
  let fn := fun (val : string) (_ : option string) => (Normal tt, Some val) in
  let l := burst fn 50 [(0, "hello"); (0, "world")] (fresh_loop 0 None) in
  target (advance fn 100 l) = Some "world".
Proof. reflexivity. Qed.

(** A call that comes exactly [delay] after the one before is outside a
    burst: both fire. *)
Example pause_of_delay_fires_twice :
  let fn := fun (_ : string) (count : nat) => (Normal tt, Datatypes.S count) in
  fired (advance fn 100 (burst fn 50 [(0, "hello"); (50, "world")] (fresh_loop 0 0)))
  = [(50, "hello"); (100, "world")].
Proof. reflexivity. Qed.

(** ** The optimistic reconciler *)

Section ReconcilerFacts.

Context {T V : Type}.
Variable reducer : T -> V -> T.

Lemma rollback_data (st : Reconciler.State T) :
  Reconciler.data (Reconciler.rollback st) = Reconciler.confirmed st.
Proof. reflexivity. Qed.

Lemma rollback_idempotent (st : Reconciler.State T) :
  Reconciler.rollback (Reconciler.rollback st) = Reconciler.rollback st.
Proof. reflexivity. Qed.

Lemma rollback_iter (n : nat) (st : Reconciler.State T) :
  Nat.iter (Datatypes.S n) Reconciler.rollback st = Reconciler.rollback st.
Proof.
  induction n as [|n IH]; [reflexivity|].
  change (Reconciler.rollback (Nat.iter (Datatypes.S n) Reconciler.rollback st)
          = Reconciler.rollback st).
  rewrite IH. apply rollback_idempotent.
Qed.

(** The confirmed value is the value of the last [confirm], whatever was
    applied or rolled back in between. *)
Lemma confirmed_last_confirm (ops : list (Reconciler.Op T V)) :
  forall st : Reconciler.State T,
  Reconciler.confirmed (fold_left (Reconciler.exec reducer) ops st)
  = Reconciler.last_confirm (Reconciler.confirmed st) ops.
Proof.
  induction ops as [|op ops IH]; intros st; [reflexivity|].
  simpl. rewrite IH. destruct op; reflexivity.
Qed.

Lemma rollbacks_restore_last_confirm (initial : T) (ops : list (Reconciler.Op T V)) (n : nat) :
  Reconciler.data
    (Nat.iter (Datatypes.S n) Reconciler.rollback
       (fold_left (Reconciler.exec reducer) ops (Reconciler.create initial)))
  = Reconciler.last_confirm initial ops.
Proof.
  rewrite rollback_iter, rollback_data, confirmed_last_confirm. reflexivity.
Qed.

End ReconcilerFacts.

(** ** The submission controller *)

Section ControllerFacts.

Import Controller.

Context {TFieldValues TResult TOptimistic S : Type}.
Variable g : Global S.
Variable options : Options TFieldValues TResult TOptimistic.

Let Ctl : Type := Controller TFieldValues TResult TOptimistic S.
Let Fn : Type := SubmitFunction TFieldValues TResult.

(** The four ways a run of the handler can go. *)
Lemma handleSubmit_aborted (submit : Fn) (values : TFieldValues) (record : FieldErrorRecord)
    (c : Ctl) :
  validation_fails options submit values record ->
  handleSubmit g options submit values c = abort record c.
Proof.
  intros (validate & Hs & Hv). unfold handleSubmit, start. rewrite Hs, Hv. reflexivity.
Qed.

Lemma start_passes (submit : Fn) (values : TFieldValues) (c : Ctl) :
  validation_passes options submit values ->
  start options submit values c = inr (enter_submitting options values c).
Proof.
  unfold validation_passes, start.
  destruct (effective_schema options submit) as [validate|]; [|reflexivity].
  intros ->. reflexivity.
Qed.

Lemma handleSubmit_succeeded (submit : Fn) (values : TFieldValues) (result : TResult)
    (c : Ctl) :
  validation_passes options submit values ->
  invoke submit values = Resolved result ->
  errorMapper options result = None ->
  handleSubmit g options submit values c
  = to_idle (succeeded g options values result
               (log_call values (enter_submitting options values c))).
Proof.
  intros Hp Hi Hm. unfold handleSubmit, settle.
  rewrite (start_passes _ _ _ Hp), Hi, Hm. reflexivity.
Qed.

Lemma handleSubmit_field_error (submit : Fn) (values : TFieldValues) (result : TResult)
    (record : FieldErrorRecord) (c : Ctl) :
  validation_passes options submit values ->
  invoke submit values = Resolved result ->
  errorMapper options result = Some record ->
  handleSubmit g options submit values c
  = to_idle (field_error values result record
               (log_call values (enter_submitting options values c))).
Proof.
  intros Hp Hi Hm. unfold handleSubmit, settle.
  rewrite (start_passes _ _ _ Hp), Hi, Hm. reflexivity.
Qed.

Lemma handleSubmit_threw (submit : Fn) (values : TFieldValues) (thrown : JsValue) (c : Ctl) :
  validation_passes options submit values ->
  invoke submit values = Rejected thrown ->
  handleSubmit g options submit values c
  = to_idle (threw values thrown (log_call values (enter_submitting options values c))).
Proof.
  intros Hp Hi. unfold handleSubmit, settle.
  rewrite (start_passes _ _ _ Hp), Hi. reflexivity.
Qed.

(** Validation either fails with a record or passes. *)
Lemma validation_cases (submit : Fn) (values : TFieldValues) :
  (exists record, validation_fails options submit values record)
  \/ validation_passes options submit values.
Proof.
  unfold validation_fails, validation_passes.
  destruct (effective_schema options submit) as [validate|]; [|right; exact I].
  destruct (validate values) as [record|] eqn:E; [left|right; reflexivity].
  exists record, validate. split; [reflexivity|exact E].
Qed.

Lemma enter_submitting_storage (values : TFieldValues) (c : Ctl) :
  storage (enter_submitting options values c) = storage c.
Proof. unfold enter_submitting. destruct (reducer_of options); reflexivity. Qed.

Lemma enter_submitting_optimistic (values : TFieldValues) (c : Ctl) :
  optimistic (enter_submitting options values c) =
  match reducer_of options with
  | Some reducer => Reconciler.apply reducer values <$> optimistic c
  | None => optimistic c
  end.
Proof. unfold enter_submitting. destruct (reducer_of options); reflexivity. Qed.

(** C1.  With a client-side schema configured (explicit, or attached to the
    submit function), field values that fail its validation make a run of the
    submit handler end without any call of the submit function: the record
    of calls is as before, and empty for a form just mounted; the validation
    record is [submitErrors], and [isSubmitSuccessful] is false. *)
Theorem validation_failure_blocks_submit (submit : Fn) (values : TFieldValues)
    (record : FieldErrorRecord) (c : Ctl) :
  validation_fails options submit values record ->
  let c' := handleSubmit g options submit values c in
  submitCalls c' = submitCalls c
  /\ (forall s, submitCalls (handleSubmit g options submit values (mount options s)) = [])
  /\ submitErrors (formState c') = Some record
  /\ submitErrors (formState c') <> None
  /\ isSubmitSuccessful (formState c') = false.
Proof.
  intros Hf c'. subst c'.
  rewrite (handleSubmit_aborted _ _ _ _ Hf).
  repeat split; try discriminate.
  intros s. rewrite (handleSubmit_aborted _ _ _ _ Hf). reflexivity.
Qed.

(** C3.  With a persist key configured, on a medium where removed keys read
    as absent: after a submission that ends in success there is no snapshot
    under the key, and [loadPersistedValues] gives [null] (wherever the
    guard [isClient()] returns; where it throws, the load throws the same);
    after one that ends in a field-error result or throws, the storage is
    what it was before the attempt. *)
Theorem snapshot_cleared_exactly_on_success (key : string) (submit : Fn)
    (values : TFieldValues) (c : Ctl) :
  persistKey options = Some key ->
  (forall medium_storage, medium g = Some medium_storage -> removes_keys medium_storage) ->
  let c' := handleSubmit g options submit values c in
  (ends_succeeded options submit values ->
     snapshot_absent g key (storage c')
     /\ forall JSON_parse,
          (loadPersistedValues JSON_parse g key (storage c')).1 =
          match isClient g with
          | Normal _ => Normal VNull
          | Throw thrown => Throw thrown
          end)
  /\ ((exists record, ends_field_error options submit values record)
      \/ ends_threw options submit values ->
      storage c' = storage c).
Proof.
  intros Hkey Hlaw c'. subst c'. split.
  - intros (Hp & result & Hi & Hm).
    rewrite (handleSubmit_succeeded _ _ _ _ Hp Hi Hm).
    unfold to_idle, succeeded, clear_snapshot. rewrite Hkey. simpl.
    rewrite enter_submitting_storage.
    assert (Habs : snapshot_absent g key (clearPersistedValues g key (storage c)).2).
    { unfold snapshot_absent. destruct (medium g) as [st|] eqn:Hm'; [|exact I].
      rewrite clearPersistedValues_guard, (isClient_true _ _ Hm').
      unfold etry, eret. rewrite (window_sessionStorage_medium _ _ _ Hm').
      pose proof (Hlaw st eq_refl key (storage c)) as Hrem.
      destruct (removeItem st key (storage c)) as [[u|e] s']; exact Hrem. }
    split; [exact Habs|].
    intros JSON_parse. unfold snapshot_absent in Habs.
    destruct (isClient_cases g) as [(e & Hc & _)|[(Hc & _)|(st & Hc & Hm')]].
    + rewrite loadPersistedValues_guard, Hc. reflexivity.
    + rewrite loadPersistedValues_guard, Hc. reflexivity.
    + rewrite Hm' in Habs.
      rewrite (loadPersistedValues_medium _ _ _ _ _ Hm'), Habs, Hc. reflexivity.
  - intros [(record & Hp & result & Hi & Hm)|(Hp & thrown & Hi)].
    + rewrite (handleSubmit_field_error _ _ _ _ _ Hp Hi Hm). simpl.
      apply enter_submitting_storage.
    + rewrite (handleSubmit_threw _ _ _ _ Hp Hi). simpl.
      apply enter_submitting_storage.
Qed.

(** C5.  With optimistic updates configured with reducer [f]: a submission
    of values [v] that ends in success, started at confirmed value [c],
    shows [f c v] as soon as it is in flight, leaves [optimistic.data] at
    [f c v], and makes [f c v] the confirmed value; for a form just mounted
    [c] is [optimisticInitial]. *)
Theorem success_confirms_reducer_output (f : TOptimistic -> TFieldValues -> TOptimistic)
    (submit : Fn) (values : TFieldValues) (c : Ctl) (st : Reconciler.State TOptimistic) :
  reducer_of options = Some f ->
  optimistic c = Some st ->
  ends_succeeded options submit values ->
  (exists in_flight,
      start options submit values c = inr in_flight
      /\ Reconciler.data <$> optimistic in_flight = Some (f (Reconciler.confirmed st) values))
  /\ (exists st',
      optimistic (handleSubmit g options submit values c) = Some st'
      /\ Reconciler.data st' = f (Reconciler.confirmed st) values
      /\ Reconciler.confirmed st' = f (Reconciler.confirmed st) values)
  /\ (forall s,
      Reconciler.data <$> optimistic (handleSubmit g options submit values (mount options s))
      = Some (f (optimisticInitial options) values)).
Proof.
  intros Hf Hst (Hp & result & Hi & Hm). split; [|split].
  - eexists. split; [apply (start_passes _ _ _ Hp)|].
    rewrite enter_submitting_optimistic, Hf, Hst. reflexivity.
  - rewrite (handleSubmit_succeeded _ _ _ _ Hp Hi Hm).
    unfold to_idle, succeeded, clear_snapshot.
    destruct (persistKey options); simpl;
      rewrite enter_submitting_optimistic, Hf, Hst; simpl; eauto.
  - intros s. rewrite (handleSubmit_succeeded _ _ _ _ Hp Hi Hm).
    unfold to_idle, succeeded, clear_snapshot.
    destruct (persistKey options); simpl;
      rewrite enter_submitting_optimistic, Hf; unfold mount; rewrite Hf; reflexivity.
Qed.

(** C7.  After a run of the submit handler, from whatever state earlier
    attempts left, [submitErrors] is non-null exactly when this attempt ended
    in a classified field-error result or in a client-validation abort: it
    is null after a success and after a throw, it is the mapped record after
    a field-error result, and after a validation abort it is the validation
    record although the submit function was not called. *)
Theorem submitErrors_reflects_last_attempt (submit : Fn) (values : TFieldValues) (c : Ctl) :
  let c' := handleSubmit g options submit values c in
  (submitErrors (formState c') <> None <->
     (exists record, ends_field_error options submit values record)
     \/ (exists record, validation_fails options submit values record))
  /\ (ends_succeeded options submit values -> submitErrors (formState c') = None)
  /\ (ends_threw options submit values -> submitErrors (formState c') = None)
  /\ (forall record, ends_field_error options submit values record ->
        submitErrors (formState c') = Some record)
  /\ (forall record, validation_fails options submit values record ->
        submitErrors (formState c') = Some record /\ submitCalls c' = submitCalls c).
Proof.
  intros c'. subst c'.
  assert (Hsucc : ends_succeeded options submit values ->
                  submitErrors (formState (handleSubmit g options submit values c)) = None).
  { intros (Hp & result & Hi & Hm). rewrite (handleSubmit_succeeded _ _ _ _ Hp Hi Hm).
    unfold to_idle, succeeded, clear_snapshot. destruct (persistKey options); reflexivity. }
  assert (Hthrew : ends_threw options submit values ->
                   submitErrors (formState (handleSubmit g options submit values c)) = None).
  { intros (Hp & thrown & Hi). rewrite (handleSubmit_threw _ _ _ _ Hp Hi). reflexivity. }
  assert (Hfield : forall record, ends_field_error options submit values record ->
                   submitErrors (formState (handleSubmit g options submit values c))
                   = Some record).
  { intros record (Hp & result & Hi & Hm).
    rewrite (handleSubmit_field_error _ _ _ _ _ Hp Hi Hm). reflexivity. }
  assert (Habort : forall record, validation_fails options submit values record ->
                   submitErrors (formState (handleSubmit g options submit values c))
                   = Some record
                   /\ submitCalls (handleSubmit g options submit values c) = submitCalls c).
  { intros record Hf. rewrite (handleSubmit_aborted _ _ _ _ Hf). split; reflexivity. }
  split; [|auto].
  split.
  - intros Hne.
    destruct (validation_cases submit values) as [Hf|Hp]; [right; exact Hf|].
    destruct (invoke submit values) as [result|thrown] eqn:Hi.
    + destruct (errorMapper options result) as [record|] eqn:Hm.
      * left. exists record. split; [exact Hp|]. eauto.
      * exfalso. apply Hne, Hsucc. split; [exact Hp|]. eauto.
    + exfalso. apply Hne, Hthrew. split; [exact Hp|]. eauto.
  - intros [(record & H)|(record & H)].
    + rewrite (Hfield record H). discriminate.
    + rewrite (proj1 (Habort record H)). discriminate.
Qed.

(** Which submissions confirm a value. *)
Lemma confirms_succeeded (submit : Fn) (values : TFieldValues) :
  ends_succeeded options submit values -> confirms options submit values = true.
Proof.
  intros (Hp & result & Hi & Hm). unfold confirms, validation_passes in *.
  rewrite Hi, Hm. destruct (effective_schema options submit); [rewrite Hp|]; reflexivity.
Qed.

Lemma confirms_aborted (submit : Fn) (values : TFieldValues) (record : FieldErrorRecord) :
  validation_fails options submit values record -> confirms options submit values = false.
Proof.
  intros (validate & Hs & Hv). unfold confirms. rewrite Hs, Hv. reflexivity.
Qed.

Lemma confirms_field_error (submit : Fn) (values : TFieldValues) (record : FieldErrorRecord) :
  ends_field_error options submit values record -> confirms options submit values = false.
Proof.
  intros (Hp & result & Hi & Hm). unfold confirms. rewrite Hi, Hm.
  apply andb_false_r.
Qed.

Lemma confirms_threw (submit : Fn) (values : TFieldValues) :
  ends_threw options submit values -> confirms options submit values = false.
Proof.
  intros (Hp & thrown & Hi). unfold confirms. rewrite Hi. apply andb_false_r.
Qed.

(** Between submissions the value shown is the confirmed one, and the
    confirmed one moves only when a submission ends in success. *)
Lemma step_settled (f : TOptimistic -> TFieldValues -> TOptimistic)
    (ev : Event TFieldValues TResult) (c : Ctl) (st : Reconciler.State TOptimistic) :
  reducer_of options = Some f ->
  optimistic c = Some st ->
  Reconciler.data st = Reconciler.confirmed st ->
  exists st',
    optimistic (step g options c ev) = Some st'
    /\ Reconciler.data st' = Reconciler.confirmed st'
    /\ Reconciler.confirmed st' = confirmed_by options f (Reconciler.confirmed st) [ev].
Proof.
  intros Hf Hst Hdata. destruct ev as [submit values|]; simpl.
  - destruct (validation_cases submit values) as [[record Hfail]|Hp].
    + rewrite (handleSubmit_aborted _ _ _ _ Hfail), (confirms_aborted _ _ _ Hfail).
      exists st. repeat split; assumption.
    + destruct (invoke submit values) as [result|thrown] eqn:Hi.
      * destruct (errorMapper options result) as [record|] eqn:Hm.
        -- rewrite (handleSubmit_field_error _ _ _ _ _ Hp Hi Hm).
           rewrite (confirms_field_error submit values record) by (split; eauto).
           simpl. rewrite enter_submitting_optimistic, Hf, Hst. simpl. eauto.
        -- rewrite (handleSubmit_succeeded _ _ _ _ Hp Hi Hm).
           rewrite (confirms_succeeded submit values) by (split; eauto).
           unfold to_idle, succeeded, clear_snapshot.
           destruct (persistKey options); simpl;
             rewrite enter_submitting_optimistic, Hf, Hst; simpl; eauto.
      * rewrite (handleSubmit_threw _ _ _ _ Hp Hi).
        rewrite (confirms_threw submit values) by (split; eauto).
        simpl. rewrite enter_submitting_optimistic, Hf, Hst. simpl. eauto.
  - unfold rollback. simpl. rewrite Hst. simpl. eauto.
Qed.

Lemma run_settled (f : TOptimistic -> TFieldValues -> TOptimistic)
    (events : list (Event TFieldValues TResult)) :
  forall (c : Ctl) (st : Reconciler.State TOptimistic),
  reducer_of options = Some f ->
  optimistic c = Some st ->
  Reconciler.data st = Reconciler.confirmed st ->
  exists st',
    optimistic (run g options events c) = Some st'
    /\ Reconciler.data st' = Reconciler.confirmed st'
    /\ Reconciler.confirmed st' = confirmed_by options f (Reconciler.confirmed st) events.
Proof.
  induction events as [|ev events IH]; intros c st Hf Hst Hdata.
  - exists st. repeat split; assumption.
  - destruct (step_settled f ev c st Hf Hst Hdata) as (st1 & Hst1 & Hdata1 & Hconf1).
    destruct (IH _ st1 Hf Hst1 Hdata1) as (st2 & Hst2 & Hdata2 & Hconf2).
    exists st2. repeat split; try assumption.
    rewrite Hconf2, Hconf1. reflexivity.
Qed.

Lemma confirmed_by_app (f : TOptimistic -> TFieldValues -> TOptimistic) (initial : TOptimistic)
    (events more : list (Event TFieldValues TResult)) :
  confirmed_by options f initial (events ++ more)
  = confirmed_by options f (confirmed_by options f initial events) more.
Proof. unfold confirmed_by. apply fold_left_app. Qed.

Lemma confirmed_by_rollbacks (f : TOptimistic -> TFieldValues -> TOptimistic)
    (initial : TOptimistic) (n : nat) :
  confirmed_by options f initial (repeat (@Rollback TFieldValues TResult) n) = initial.
Proof. induction n as [|n IH]; [reflexivity|exact IH]. Qed.


End ControllerFacts.

(** ** The scenarios, run *)

Section ScenarioFacts.

Import Controller Scenario.

Lemma web_storage_removes_keys (quota : nat) : removes_keys (web_storage quota).
Proof. intros key s. simpl. f_equal. apply lookup_delete_eq. Qed.

Let page : Global (gmap string string) := browser (web_storage 1000).

(** Scenario A: [{email: "bad", password: "short"}] against the signup
    schema, given explicitly and attached to the action. *)
Lemma validation_failure_blocks_submit_witness :
  let values := {| email := "bad"; password := "short" |} in
  let record := obj [("email", arr [VString "Invalid email address"]);
                     ("password", arr [VString "Password must be at least 8 characters"])] in
  let explicit := handleSubmit page (signup_options (Some signupSchema) None)
                    createSuccessAction values
                    (mount (signup_options (Some signupSchema) None) ∅) in
  let attached := handleSubmit page (signup_options None None) withZod_action values
                    (mount (signup_options None None) ∅) in
  (submitCalls explicit = []
   /\ submitErrors (formState explicit) = Some record
   /\ isSubmitSuccessful (formState explicit) = false)
  /\ (submitCalls attached = []
      /\ submitErrors (formState attached) = Some record
      /\ isSubmitSuccessful (formState attached) = false).
Proof.
  intros values record explicit attached. split.
  - assert (H : validation_fails (signup_options (Some signupSchema) None)
                  createSuccessAction values record).
    { exists signupSchema. split; reflexivity. }
    destruct (validation_failure_blocks_submit page _ createSuccessAction values record
                (mount (signup_options (Some signupSchema) None) ∅) H)
      as (H1 & _ & H3 & _ & H5).
    repeat split; assumption.
  - assert (H : validation_fails (signup_options None None) withZod_action values record).
    { exists signupSchema. split; reflexivity. }
    destruct (validation_failure_blocks_submit page _ withZod_action values record
                (mount (signup_options None None) ∅) H)
      as (H1 & _ & H3 & _ & H5).
    repeat split; assumption.
Defined.

(** The persistence runs: a stored snapshot is gone after a success and
    still there after a field-error result and after a throw. *)
Lemma snapshot_cleared_exactly_on_success_witness :
  let key := "wizard-step-1" in
  let opts := signup_options None (Some key) in
  let values := {| email := "old@test.com"; password := "12345678" |} in
  let before := mount opts ({[key := "true"]} : gmap string string) in
  snapshot_absent page key
    (storage (handleSubmit page opts createSuccessAction values before))
  /\ storage (handleSubmit page opts createErrorAction values before) = {[key := "true"]}
  /\ storage (handleSubmit page opts createThrowingAction values before) = {[key := "true"]}.
Proof.
  intros key opts values before.
  assert (Hlaw : forall st, medium page = Some st -> removes_keys st).
  { intros st [= <-]. apply web_storage_removes_keys. }
  split; [|split].
  - assert (Hs : ends_succeeded opts createSuccessAction values).
    { split; [exact I|]. eexists. split; reflexivity. }
    exact (proj1 (proj1 (snapshot_cleared_exactly_on_success page opts key
                    createSuccessAction values before eq_refl Hlaw) Hs)).
  - apply (proj2 (snapshot_cleared_exactly_on_success page opts key
                    createErrorAction values before eq_refl Hlaw)).
    left. eexists. split; [exact I|]. eexists. split; reflexivity.
  - apply (proj2 (snapshot_cleared_exactly_on_success page opts key
                    createThrowingAction values before eq_refl Hlaw)).
    right. split; [exact I|]. eexists. reflexivity.
Defined.

(** [persist.test.ts]: the key is gone from the storage after a successful
    submission and kept after one with errors. *)
Example clears_sessionStorage_after_success :
  let opts := signup_options None (Some "wizard-step-1") in
  let values := {| email := "old@test.com"; password := "12345678" |} in
  let before := mount opts ({["wizard-step-1" := "true"]} : gmap string string) in
  storage (handleSubmit page opts createSuccessAction values before) !! "wizard-step-1"
    = None
  /\ storage (handleSubmit page opts createErrorAction values before) !! "wizard-step-1"
    = Some "true".
Proof. split; reflexivity. Qed.

(** Scenario C, first half: a successful submission of ["Updated"]. *)
Lemma success_confirms_reducer_output_witness :
  Reconciler.data <$>
    optimistic (handleSubmit page todo_options createUpdateTodoAction "Updated"
                  (mount todo_options ∅))
  = Some {| id := "todo-1"; title := "Updated"; completed := false |}.
Proof.
  assert (Hs : ends_succeeded todo_options createUpdateTodoAction "Updated").
  { split; [exact I|]. eexists. split; reflexivity. }
  exact (proj2 (proj2 (success_confirms_reducer_output page todo_options merge_title
           createUpdateTodoAction "Updated" (mount todo_options ∅)
           (Reconciler.create INITIAL_TODO) eq_refl eq_refl Hs)) ∅).
Defined.


(** Scenario B and its neighbours: the four ends of an attempt. *)
Lemma submitErrors_reflects_last_attempt_witness :
  let values := {| email := "a@b.com"; password := "12345678" |} in
  let opts := signup_options None None in
  let failed := handleSubmit page opts createErrorAction values (mount opts ∅) in
  submitErrors (formState failed) = Some (obj [("email", arr [VString "taken"])])
  /\ submitErrors (formState (handleSubmit page opts createSuccessAction values failed)) = None
  /\ submitErrors (formState (handleSubmit page opts createThrowingAction values failed)) = None
  /\ submitErrors (formState (handleSubmit page opts withZod_action
                                {| email := "bad"; password := "12345678" |} failed))
     = Some (obj [("email", arr [VString "Invalid email address"])]).
Proof.
  intros values opts failed.
  split; [|split; [|split]].
  - apply (proj1 (proj2 (proj2 (proj2
      (submitErrors_reflects_last_attempt page opts createErrorAction values (mount opts ∅)))))).
    split; [exact I|]. eexists. split; reflexivity.
  - apply (proj1 (proj2
      (submitErrors_reflects_last_attempt page opts createSuccessAction values failed))).
    split; [exact I|]. eexists. split; reflexivity.
  - apply (proj1 (proj2 (proj2
      (submitErrors_reflects_last_attempt page opts createThrowingAction values failed)))).
    split; [exact I|]. eexists. reflexivity.
  - apply (proj2 (proj2 (proj2 (proj2
      (submitErrors_reflects_last_attempt page opts withZod_action
         {| email := "bad"; password := "12345678" |} failed))))).
    exists signupSchema. split; reflexivity.
Defined.

End ScenarioFacts.

(* ===================================================================== *)
(** * Part III: further properties of the code                             *)
(* ===================================================================== *)

Local Open Scope list_scope.

(** ** types.ts *)

(** X1.  [hasAttachedSchema] never throws, and it answers true exactly when
    the action carries a [__schema] property that is neither [null] nor
    [undefined]; a falsy schema value such as [0] or [false] counts as
    attached. *)
Theorem hasAttachedSchema_spec (action : ServerAction) :
  (exists b, hasAttachedSchema action = Normal b)
  /\ (hasAttachedSchema action = Normal true <->
      exists schema,
        lookup_prop "__schema" (action_props action) = Some schema
        /\ schema <> VNull /\ schema <> VUndefined).
Proof.
  unfold hasAttachedSchema, action_value. simpl.
  destruct (lookup_prop "__schema" (action_props action)) as [schema|] eqn:E; simpl.
  - split; [eauto|]. split.
    + intros [= H]. exists schema. repeat split; intros ->; discriminate.
    + intros (schema' & [= <-] & Hn & Hu). f_equal.
      destruct schema; try reflexivity; congruence.
  - split; [eauto|]. split; [discriminate|].
    intros (schema & Hs & _). discriminate.
Qed.

Lemma hasAttachedSchema_spec_witness :
  hasAttachedSchema {| action_length := 1; action_props := [("__schema", VBool false)] |}
  = Normal true.
Proof.
  apply (proj2 (hasAttachedSchema_spec _)).
  exists (VBool false). repeat split; discriminate.
Defined.

(** X2.  What the default error mapper returns is [null] or an object:
    never [undefined], never a primitive, never a function. *)
Theorem defaultErrorMapper_returns_null_or_object (r v : JsValue) :
  defaultErrorMapper r = Normal v ->
  v = VNull \/ exists kind props, v = VObject kind props.
Proof.
  destruct r as [| | | | | | |kind props|];
    try (rewrite defaultErrorMapper_not_object by discriminate; intros [= <-]; left;
         reflexivity).
  rewrite defaultErrorMapper_object.
  destruct (lookup_prop "errors" props) as [e|]; [|intros [= <-]; left; reflexivity].
  destruct (truthy e) eqn:Ht; simpl; [|intros [= <-]; left; reflexivity].
  destruct (String.eqb (typeof e) "object") eqn:Hty; [|intros [= <-]; left; reflexivity].
  intros [= <-]. apply String.eqb_eq in Hty.
  destruct e; simpl in *; try discriminate. right. eauto.
Qed.

Lemma defaultErrorMapper_returns_null_or_object_witness :
  obj [("email", arr [VString "taken"])] = VNull
  \/ exists kind props, obj [("email", arr [VString "taken"])] = VObject kind props.
Proof.
  apply (defaultErrorMapper_returns_null_or_object
           (obj [("errors", obj [("email", arr [VString "taken"])])])).
  reflexivity.
Defined.

(** X3.  On objects the default error mapper looks at the [errors] property
    and at nothing else: two objects whose [errors] read the same are mapped
    the same, whatever else they hold (a [success] flag, a [data] payload)
    and whether they are arrays or not. *)
Theorem defaultErrorMapper_reads_errors_only (kind1 kind2 : ObjKind)
    (props1 props2 : list (string * JsValue)) :
  lookup_prop "errors" props1 = lookup_prop "errors" props2 ->
  defaultErrorMapper (VObject kind1 props1) = defaultErrorMapper (VObject kind2 props2).
Proof.
  intros H. rewrite !defaultErrorMapper_object, H. reflexivity.
Qed.

Lemma defaultErrorMapper_reads_errors_only_witness :
  defaultErrorMapper
    (obj [("success", VBool true); ("errors", obj [("email", arr [VString "taken"])])])
  = defaultErrorMapper (obj [("errors", obj [("email", arr [VString "taken"])])]).
Proof.
  apply defaultErrorMapper_reads_errors_only. reflexivity.
Defined.

(** ** react-shim.ts *)

Section ReactShimFacts.

Import ReactShim.

Lemma coalesce_undefined_typeof (v : JsValue) :
  String.eqb (typeof (coalesce v VUndefined)) "function" = String.eqb (typeof v) "function".
Proof. destruct v; reflexivity. Qed.

(** X4.  For a module object [React], [hasUseOptimistic] is true exactly
    when [React.useOptimistic] is a function, and the exported
    [useOptimistic] is then that function; the export is never [null], and it
    is [undefined] exactly when the property is missing, [undefined] or
    [null].  [hasUseActionState] follows [React.useActionState] in the same
    way. *)
Theorem hasUseOptimistic_spec (kind : ObjKind) (props : list (string * JsValue)) :
  let React := VObject kind props in
  let property := default VUndefined (lookup_prop "useOptimistic" props) in
  (hasUseOptimistic React = Normal true <->
     exists arity fprops, property = VFunction arity fprops)
  /\ (forall arity fprops, property = VFunction arity fprops ->
        useOptimistic React = Normal (VFunction arity fprops))
  /\ useOptimistic React <> Normal VNull
  /\ (useOptimistic React = Normal VUndefined <->
        property = VUndefined \/ property = VNull)
  /\ (hasUseActionState React = Normal true <->
        exists arity fprops,
          default VUndefined (lookup_prop "useActionState" props) = VFunction arity fprops).
Proof.
  intros React property.
  unfold hasUseOptimistic, useOptimistic, hasUseActionState, useActionState. simpl.
  fold property. rewrite !coalesce_undefined_typeof.
  split; [|split; [|split; [|split]]].
  - destruct property; simpl; split; try discriminate; eauto;
      intros (arity' & fprops' & H); discriminate.
  - intros arity fprops ->. reflexivity.
  - destruct property; discriminate.
  - destruct property; simpl; split; try discriminate; eauto;
      intros [H|H]; discriminate.
  - destruct (default VUndefined (lookup_prop "useActionState" props));
      simpl; split; try discriminate; eauto;
      intros (arity' & fprops' & H); discriminate.
Qed.

Lemma hasUseOptimistic_spec_witness :
  hasUseOptimistic (obj [("useState", VFunction 1 []); ("useOptimistic", VFunction 2 [])])
  = Normal true.
Proof.
  apply (proj1 (hasUseOptimistic_spec KPlain
                  [("useState", VFunction 1 []); ("useOptimistic", VFunction 2 [])])).
  exists 2, []. reflexivity.
Defined.

(** React 18 and React 19, as far as the shim looks. *)
Example shim_on_React_18 :
  let React := obj [("useState", VFunction 1 []); ("useTransition", VFunction 0 [])] in
  hasUseOptimistic React = Normal false
  /\ hasUseActionState React = Normal false
  /\ useOptimistic React = Normal VUndefined
  /\ useActionState React = Normal VUndefined.
Proof. repeat split. Qed.

Example shim_on_React_19 :
  let React := obj [("useActionState", VFunction 3 []); ("useOptimistic", VFunction 2 [])] in
  hasUseOptimistic React = Normal true /\ hasUseActionState React = Normal true.
Proof. repeat split. Qed.

End ReactShimFacts.

(** ** The login example *)

Section LoginFacts.

Import LoginExample.

(** X5.  Whatever the schema's parser answers, the default error mapper
    finds field errors in the result of [loginAction] exactly when the
    parse fails or the parsed email is [taken@example.com], and never
    throws on it; [prevState] plays no part; and with its two declared
    parameters the action is taken for a form-data action. *)
Theorem loginAction_classified (safeParse : JsValue -> SafeParse) (prevState : JsValue)
    (formData : list (string * string)) :
  (defaultErrorMapper (loginAction safeParse prevState formData) = Normal VNull <->
     exists email password,
       safeParse (fromEntries formData) = ParseSuccess email password
       /\ email <> "taken@example.com")
  /\ (forall fieldErrors,
        safeParse (fromEntries formData) = ParseError fieldErrors ->
        defaultErrorMapper (loginAction safeParse prevState formData)
        = Normal (obj fieldErrors))
  /\ (forall other, loginAction safeParse other formData
                    = loginAction safeParse prevState formData)
  /\ isFormDataAction loginAction_function = true.
Proof.
  unfold loginAction.
  destruct (safeParse (fromEntries formData)) as [email password|fieldErrors] eqn:E.
  - destruct (String.eqb_spec email "taken@example.com") as [->|Hne].
    + repeat split; try discriminate.
      intros (e & p & [= <- <-] & Hn). congruence.
    + repeat split; try discriminate. eauto.
  - repeat split; try discriminate.
    + intros (e & p & H & _). discriminate.
    + intros fe [= <-]. reflexivity.
Qed.

Lemma loginAction_classified_witness :
  defaultErrorMapper
    (loginAction sample_safeParse VNull
       [("email", "new@example.com"); ("password", "12345678")])
  = Normal VNull.
Proof.
  apply (proj1 (loginAction_classified sample_safeParse VNull
                  [("email", "new@example.com"); ("password", "12345678")])).
  exists "new@example.com", "12345678". split; [reflexivity|discriminate].
Defined.

Example loginAction_runs :
  loginAction sample_safeParse VNull [("email", "taken@example.com"); ("password", "12345678")]
    = obj [("errors", obj [("email", arr [VString "This email is already registered"])])]
  /\ loginAction sample_safeParse VNull [("email", "bad"); ("password", "12345678")]
    = obj [("errors", obj [("email", arr [VString "Please enter a valid email address"])])]
  /\ loginAction sample_safeParse VNull [("email", "new@example.com"); ("password", "12345678")]
    = obj [("success", VBool true)].
Proof. repeat split. Qed.

End LoginFacts.

(** ** persist.ts: how the helpers compose *)

Lemma web_storage_stores_keys (quota : nat) : stores_keys (web_storage quota).
Proof.
  intros key text s. simpl.
  destruct (stored_size (<[key:=text]> s) <=? quota)%nat; simpl; [|discriminate].
  intros _. f_equal. apply lookup_insert_eq.
Qed.

Section PersistRoundTrips.

Context {S : Type}.
Variable JSON_parse : string -> completion JsValue.
Variable JSON_stringify : JsValue -> completion string.
Variable g : Global S.

(** With a medium, [savePersistedValues] leaves the state that [setItem]
    leaves, for the text that [JSON.stringify] gives. *)
Lemma savePersistedValues_medium (storage : Storage S) (key text : string)
    (values : JsValue) (s : S) :
  medium g = Some storage ->
  JSON_stringify values = Normal text ->
  (savePersistedValues JSON_stringify g key values s).2 = (setItem storage key text s).2.
Proof.
  intros Hm Hs. rewrite savePersistedValues_guard, (isClient_true _ _ Hm).
  rewrite (window_sessionStorage_medium _ _ _ Hm).
  unfold etry, ebind, lift, eret. rewrite Hs.
  destruct (setItem storage key text s) as [[u|e] s']; reflexivity.
Qed.

Lemma clearPersistedValues_medium (storage : Storage S) (key : string) (s : S) :
  medium g = Some storage ->
  (clearPersistedValues g key s).2 = (removeItem storage key s).2.
Proof.
  intros Hm. rewrite clearPersistedValues_guard, (isClient_true _ _ Hm).
  rewrite (window_sessionStorage_medium _ _ _ Hm).
  unfold etry, eret.
  destruct (removeItem storage key s) as [[u|e] s']; reflexivity.
Qed.

(** X6.  Save, then load: on a medium that reads back what it stored, when
    [setItem] accepted the text and [JSON.parse] reads the non-empty text
    that [JSON.stringify] wrote as [v], [loadPersistedValues] after
    [savePersistedValues] under the same key gives [v]. *)
Theorem save_then_load (storage : Storage S) (key text : string) (values v : JsValue)
    (s : S) :
  medium g = Some storage ->
  stores_keys storage ->
  JSON_stringify values = Normal text ->
  text <> EmptyString ->
  (setItem storage key text s).1 = Normal tt ->
  JSON_parse text = Normal v ->
  (loadPersistedValues JSON_parse g key
     (savePersistedValues JSON_stringify g key values s).2).1 = Normal v.
Proof.
  intros Hm Hlaw Hs Hne Hset Hp.
  rewrite (savePersistedValues_medium _ _ _ _ _ Hm Hs).
  rewrite (loadPersistedValues_medium _ _ _ _ _ Hm), (Hlaw key text s Hset).
  destruct (String.eqb_spec text EmptyString) as [->|_]; [congruence|].
  rewrite Hp. reflexivity.
Qed.

(** X7.  Clear, then load: without a medium, or on a medium where a removed
    key reads as absent, [loadPersistedValues] after [clearPersistedValues]
    under the same key gives [null], whatever was stored, wherever the guard
    [isClient()] returns; where the read of [window.sessionStorage] throws,
    the load throws what the read threw. *)
Theorem clear_then_load (key : string) (s : S) :
  (forall storage, medium g = Some storage -> removes_keys storage) ->
  (loadPersistedValues JSON_parse g key (clearPersistedValues g key s).2).1 =
  match isClient g with
  | Normal _ => Normal VNull
  | Throw thrown => Throw thrown
  end.
Proof.
  intros Hlaw.
  destruct (isClient_cases g) as [(e & Hc & _)|[(Hc & _)|(storage & Hc & Hm)]].
  - rewrite loadPersistedValues_guard, Hc. reflexivity.
  - rewrite loadPersistedValues_guard, Hc. reflexivity.
  - rewrite (clearPersistedValues_medium _ _ _ Hm).
    rewrite (loadPersistedValues_medium _ _ _ _ _ Hm), (Hlaw storage Hm key s), Hc.
    reflexivity.
Qed.

(** X8.  [loadPersistedValues] only reads: the state it leaves is the state
    [getItem] leaves, also when the stored text is empty or [JSON.parse]
    throws; without a medium the state is untouched. *)
Theorem load_only_reads (key : string) (s : S) :
  (loadPersistedValues JSON_parse g key s).2 =
  match medium g with
  | Some storage => (getItem storage key s).2
  | None => s
  end.
Proof.
  rewrite loadPersistedValues_guard.
  destruct (isClient_cases g) as [(e & Hc & Hm)|[(Hc & Hm)|(storage & Hc & Hm)]];
    rewrite Hc, Hm; try reflexivity.
  rewrite (window_sessionStorage_medium _ _ _ Hm).
  unfold etry, ebind, eret, lift.
  destruct (getItem storage key s) as [[[text|]|e] s']; simpl; try reflexivity.
  destruct (String.eqb text EmptyString); simpl; [reflexivity|].
  destruct (JSON_parse text); reflexivity.
Qed.

(** X9.  When [JSON.stringify] throws on the values, [savePersistedValues]
    does not call [setItem]: the state is untouched, whatever the medium,
    and the call returns normally wherever the guard [isClient()] returns;
    where the read of [window.sessionStorage] throws, it throws what the
    read threw. *)
Theorem save_unserialisable_writes_nothing (key : string) (values thrown : JsValue) (s : S) :
  JSON_stringify values = Throw thrown ->
  savePersistedValues JSON_stringify g key values s =
  (match isClient g with
   | Normal _ => Normal tt
   | Throw read_thrown => Throw read_thrown
   end, s).
Proof.
  intros Hs. rewrite savePersistedValues_guard.
  destruct (isClient_cases g) as [(e & Hc & _)|[(Hc & _)|(storage & Hc & Hm)]];
    rewrite Hc; try reflexivity.
  rewrite (window_sessionStorage_medium _ _ _ Hm).
  unfold etry, ebind, lift, eret. rewrite Hs. reflexivity.
Qed.

(** X10.  A value other than [null] that [loadPersistedValues] returns is
    what [JSON.parse] made of a non-empty text that [getItem] read under the
    key: nothing else is ever returned. *)
Theorem load_returns_parsed_snapshot (key : string) (s : S) (v : JsValue) :
  (loadPersistedValues JSON_parse g key s).1 = Normal v ->
  v <> VNull ->
  exists storage text,
    medium g = Some storage
    /\ (getItem storage key s).1 = Normal (Some text)
    /\ text <> EmptyString
    /\ JSON_parse text = Normal v.
Proof.
  intros Hload Hv.
  destruct (isClient_cases g) as [(e & Hc & _)|[(Hc & _)|(storage & Hc & Hm)]].
  - rewrite loadPersistedValues_guard, Hc in Hload. discriminate.
  - rewrite loadPersistedValues_guard, Hc in Hload. simpl in Hload.
    injection Hload as <-. congruence.
  - rewrite (loadPersistedValues_medium _ _ _ _ _ Hm) in Hload.
    destruct (getItem storage key s).1 as [[text|]|e] eqn:Hget;
      try (injection Hload as <-; congruence).
    destruct (String.eqb_spec text EmptyString) as [->|Hne];
      [injection Hload as <-; congruence|].
    destruct (JSON_parse text) as [v'|e] eqn:Hp; [|injection Hload as <-; congruence].
    injection Hload as <-. exists storage, text. repeat split; assumption.
Qed.

End PersistRoundTrips.

Lemma save_then_load_witness :
  (loadPersistedValues parse_literal (browser (web_storage 100)) "test-form"
     (savePersistedValues stringify_literal (browser (web_storage 100)) "test-form"
        (VBool true) ∅).2).1 = Normal (VBool true).
Proof.
  apply (save_then_load parse_literal stringify_literal (browser (web_storage 100))
           (web_storage 100) "test-form" "true" (VBool true) (VBool true) ∅);
    try reflexivity.
  - apply web_storage_stores_keys.
  - discriminate.
Defined.

Lemma clear_then_load_witness :
  (loadPersistedValues parse_literal (browser (web_storage 100)) "test-form"
     (clearPersistedValues (browser (web_storage 100)) "test-form"
        {["test-form" := "true"]}).2).1 = Normal VNull
  /\ (loadPersistedValues parse_literal storage_denied "test-form"
        (clearPersistedValues storage_denied "test-form" {["test-form" := "true"]}).2).1
     = Throw SecurityError.
Proof.
  split.
  - apply (clear_then_load parse_literal (browser (web_storage 100)) "test-form"
             {["test-form" := "true"]}).
    intros storage [= <-]. apply web_storage_removes_keys.
  - apply (clear_then_load parse_literal storage_denied "test-form"
             {["test-form" := "true"]}).
    intros storage [=].
Defined.

Lemma save_unserialisable_writes_nothing_witness :
  savePersistedValues stringify_literal (browser (web_storage 100)) "test-form"
    (VBigInt 1) {["test-form" := "true"]}
  = (Normal tt, {["test-form" := "true"]})
  /\ savePersistedValues stringify_literal storage_denied "test-form"
       (VBigInt 1) {["test-form" := "true"]}
     = (Throw SecurityError, {["test-form" := "true"]}).
Proof.
  split.
  - apply (save_unserialisable_writes_nothing stringify_literal (browser (web_storage 100))
             "test-form" (VBigInt 1) (TypeError "not a JSON literal")).
    reflexivity.
  - apply (save_unserialisable_writes_nothing stringify_literal storage_denied
             "test-form" (VBigInt 1) (TypeError "not a JSON literal")).
    reflexivity.
Defined.

Lemma load_returns_parsed_snapshot_witness :
  exists storage text,
    medium (browser (web_storage 100)) = Some storage
    /\ (getItem storage "test-form" ({["test-form" := "true"]} : gmap string string)).1
       = Normal (Some text)
    /\ text <> EmptyString
    /\ parse_literal text = Normal (VBool true).
Proof.
  apply (load_returns_parsed_snapshot parse_literal (browser (web_storage 100))
           "test-form" {["test-form" := "true"]} (VBool true)).
  - reflexivity.
  - discriminate.
Defined.

(** ** persist.ts: the debounce utility under any use *)

Section DebounceInvariants.

Context {TArgs W : Type}.
Variable fn : TArgs -> W -> completion unit * W.
Variable delay : nat.

Lemma advance_nothing_pending (ms : nat) (l : Loop TArgs W) :
  pending l = [] ->
  pending (advance fn ms l) = [] /\ fired (advance fn ms l) = fired l
  /\ target (advance fn ms l) = target l.
Proof. intros Hp. unfold advance. rewrite Hp. simpl. auto. Qed.

Lemma advance_single_early (t : Timeout TArgs) (ms : nat) (l : Loop TArgs W) :
  pending l = [t] -> now l + ms < timeout_due t ->
  pending (advance fn ms l) = [t] /\ fired (advance fn ms l) = fired l
  /\ timer (advance fn ms l) = timer l /\ target (advance fn ms l) = target l.
Proof.
  intros Hp Hlt. unfold advance. rewrite Hp. simpl. rewrite Hp.
  rewrite filter_cons_False by (simpl; lia).
  rewrite filter_nil. simpl. auto.
Qed.

Lemma advance_single_late (t : Timeout TArgs) (ms : nat) (l : Loop TArgs W) :
  pending l = [t] -> timeout_due t <= now l + ms ->
  pending (advance fn ms l) = []
  /\ fired (advance fn ms l)
     = fired l ++ [(Nat.max (now l) (timeout_due t), timeout_args t)]
  /\ target (advance fn ms l) = (fn (timeout_args t) (target l)).2.
Proof.
  intros Hp Hle. unfold advance. rewrite Hp. simpl. rewrite Hp.
  rewrite filter_cons_True by (simpl; lia).
  rewrite filter_nil. simpl.
  unfold callback. simpl.
  destruct (fn (timeout_args t) (target l)) as [outcome w'] eqn:E. simpl.
  rewrite Hp.
  rewrite filter_cons_False by (simpl; intros H; apply H; reflexivity).
  rewrite filter_nil. auto.
Qed.

(** A call leaves exactly its own timeout pending. *)
Lemma debounce_tidy (args : TArgs) (l : Loop TArgs W) :
  tidy l ->
  pending (debounce delay args l)
  = [{| timeout_id := next_id l; timeout_due := now l + delay; timeout_args := args |}]
  /\ timer (debounce delay args l) = Some (next_id l)
  /\ fired (debounce delay args l) = fired l
  /\ target (debounce delay args l) = target l.
Proof.
  intros [Hp|(t & Hp & Ht)]; unfold debounce.
  - destruct (timer l) as [id|]; simpl; rewrite Hp; simpl; auto.
  - rewrite Ht. simpl. rewrite Hp.
    rewrite filter_cons_False by (simpl; intros H; apply H; reflexivity).
    rewrite filter_nil. simpl. auto.
Qed.

Lemma act_tidy (a : Action) (l : Loop TArgs W) : tidy l -> tidy (act fn delay l a).
Proof.
  intros Ht. destruct a as [args|ms]; cbn [act].
  - destruct (debounce_tidy args l Ht) as (Hp & Hi & _).
    right. eexists. split; [exact Hp|exact Hi].
  - destruct Ht as [Hp|(t & Hp & Ht)].
    + left. apply (advance_nothing_pending ms l Hp).
    + destruct (Nat.le_gt_cases (timeout_due t) (now l + ms)) as [Hle|Hlt].
      * left. apply (advance_single_late t ms l Hp Hle).
      * right. exists t. destruct (advance_single_early t ms l Hp Hlt) as (H1 & _ & H3 & _).
        split; [exact H1|]. rewrite H3. exact Ht.
Qed.

Lemma play_tidy (actions : list Action) :
  forall l : Loop TArgs W, tidy l -> tidy (play fn delay actions l).
Proof.
  induction actions as [|a actions IH]; intros l Ht; [exact Ht|].
  apply IH, act_tidy, Ht.
Qed.

Lemma act_accounted (calls : list TArgs) (a : Action) (l : Loop TArgs W) :
  accounted calls l -> accounted (calls ++ calls_of [a]) (act fn delay l a).
Proof.
  intros (Ht & Hn & Hf & Hp).
  split; [apply act_tidy, Ht|].
  destruct a as [args|ms]; cbn [act calls_of].
  - destruct (debounce_tidy args l Ht) as (Hp' & _ & Hf' & _).
    rewrite Hp', Hf'. rewrite length_app. simpl. repeat split.
    + destruct Ht as [E|(t & E & _)]; rewrite E in Hn; simpl in Hn; lia.
    + eapply Forall_impl; [exact Hf|]. intros x Hx. apply elem_of_app. left. exact Hx.
    + constructor; [|constructor]. simpl. apply elem_of_app. right. apply list_elem_of_singleton.
      reflexivity.
  - rewrite app_nil_r.
    destruct Ht as [E|(t & E & Ht)].
    + destruct (advance_nothing_pending ms l E) as (H1 & H2 & _).
      rewrite H1, H2. rewrite E in Hn. repeat split; [exact Hn|exact Hf|constructor].
    + destruct (Nat.le_gt_cases (timeout_due t) (now l + ms)) as [Hle|Hlt].
      * destruct (advance_single_late t ms l E Hle) as (H1 & H2 & _).
        rewrite H1, H2, length_app. rewrite E in Hn, Hp. simpl in *. repeat split.
        -- lia.
        -- apply Forall_app. split; [exact Hf|].
           constructor; [|constructor]. simpl. apply (Forall_inv Hp).
        -- constructor.
      * destruct (advance_single_early t ms l E Hlt) as (H1 & H2 & _).
        rewrite H1, H2, <- E. repeat split; assumption.
Qed.

Lemma calls_of_app (xs ys : list (@Action TArgs)) :
  calls_of (xs ++ ys) = calls_of xs ++ calls_of ys.
Proof.
  induction xs as [|[args|ms] xs IH]; simpl; [reflexivity| |exact IH].
  rewrite IH. reflexivity.
Qed.

Lemma play_accounted (actions : list Action) :
  forall (calls : list TArgs) (l : Loop TArgs W),
  accounted calls l -> accounted (calls ++ calls_of actions) (play fn delay actions l).
Proof.
  induction actions as [|a actions IH]; intros calls l H.
  - simpl. rewrite app_nil_r. exact H.
  - change (a :: actions) with ([a] ++ actions).
    rewrite calls_of_app, app_assoc.
    apply (IH _ _ (act_accounted calls a l H)).
Qed.

End DebounceInvariants.


(** X12.  However calls and turns alternate, [fn] has run at most as often
    as the debounced function was called, timeouts still pending counted in,
    and every run of [fn] was on the arguments of one of the calls. *)
Theorem debounce_runs_only_what_was_called {TArgs W : Type}
    (fn : TArgs -> W -> completion unit * W) (delay start : nat) (w : W)
    (actions : list (@Action TArgs)) :
  let l := play fn delay actions (fresh_loop start w) in
  length (fired l) + length (pending l) <= length (calls_of actions)
  /\ Forall (fun invocation => invocation.2 ∈ calls_of actions) (fired l).
Proof.
  intros l.
  assert (H0 : accounted [] (fresh_loop (TArgs := TArgs) start w)).
  { split; [left; reflexivity|]. simpl. repeat split; [lia|constructor|constructor]. }
  destruct (play_accounted fn delay actions [] _ H0) as (_ & Hn & Hf & _).
  simpl in Hn, Hf. split; assumption.
Qed.

Section SpacedCalls.

Context {TArgs W : Type}.
Variable fn : TArgs -> W -> completion unit * W.
Variable delay : nat.

Lemma spaced_burst (calls : list (nat * TArgs)) :
  forall (l : Loop TArgs W) (log : list (nat * TArgs)) (a : TArgs) (w : W) (ms : nat),
  armed_after log (now l + delay) a w l ->
  Forall (fun call => delay <= call.1 /\ 0 < call.1) calls ->
  delay <= ms ->
  let l' := advance fn ms (burst fn delay calls l) in
  fired l' = log ++ (now l + delay, a)
                 :: map (fun call => (call.1 + delay, call.2)) (call_times (now l) calls)
  /\ target l' = run_all fn calls (fn a w).2
  /\ pending l' = [].
Proof.
  induction calls as [|[pause a'] calls IH]; intros l log a w ms Ha Hall Hms.
  - destruct Ha as (id & Hp & Ht & Hf & Hn & Hw). cbn zeta. cbn [burst].
    destruct (advance_single_late fn _ ms l Hp) as (H1 & H2 & H3); [simpl; lia|].
    rewrite H1, H2, H3, Hf, Hw. simpl. repeat split.
    do 3 f_equal. lia.
  - apply Forall_cons in Hall as [[Hpause Hturn] Hall]. simpl in Hpause, Hturn.
    assert (Hpass : pass fn pause l = advance fn pause l)
      by (destruct pause; [lia|reflexivity]).
    destruct Ha as (id & Hp & Ht & Hf & Hn & Hw).
    destruct (advance_single_late fn _ pause l Hp) as (H1 & H2 & H3); [simpl; lia|].
    cbn [timeout_due timeout_args] in H2, H3.
    destruct (debounce_tidy delay a' (advance fn pause l) (or_introl H1))
      as (D1 & D2 & D3 & D4).
    assert (Harm : armed_after (log ++ [(now l + delay, a)])
                     (now (debounce delay a' (advance fn pause l)) + delay) a' (fn a w).2
                     (debounce delay a' (advance fn pause l))).
    { rewrite now_debounce. exists (next_id (advance fn pause l)).
      split; [exact D1|]. split; [exact D2|]. split; [|split].
      - rewrite D3, H2, Hf. do 3 f_equal. lia.
      - rewrite now_debounce. lia.
      - rewrite D4, H3, Hw. reflexivity. }
    destruct (IH _ _ _ _ ms Harm Hall Hms) as (I1 & I2 & I3).
    cbn zeta in *. cbn [burst]. rewrite Hpass, I1, I2, I3.
    rewrite now_debounce, now_advance. simpl. rewrite <- app_assoc. repeat split.
Qed.

End SpacedCalls.



(** With a delay of 0, calls made in one run are still collapsed: only the
    last is served, in the next turn of the event loop. *)
Example debounce_delay_0_in_one_run :
  let fn := fun (args : string) (log : list string) => (Normal tt, log ++ [args]) in
  fired (advance fn 0 (burst fn 0 [(0, "a"); (0, "b")] (fresh_loop 0 []))) = [(0, "b")]
  /\ fired (play fn 0 [Call "a"; Call "b"; Turn 0] (fresh_loop 0 [])) = [(0, "b")].
Proof. split; reflexivity. Qed.

(** A call after a turn in which [fn] threw: the stale [timer] does no harm. *)
Example debounce_after_throwing_fn :
  let fn := fun (args : string) (log : list string) =>
              (if String.eqb args "boom" then Throw VNull else Normal tt, log ++ [args]) in
  let l := play fn 50 [Call "boom"; Turn 50; Call "next"; Call "last"; Turn 50]
             (fresh_loop 0 []) in
  target l = ["boom"; "last"] /\ pending l = [].
Proof. split; reflexivity. Qed.
